(** * TempMon: a shallow embedding of [tools/TempMon/tempmon.cpp]

    The program polls temperature sources, compares each reading against a
    configured threshold and drives wiringPi output pins.  The embedding
    follows the source function by function:

    - [long double] values are IEEE-754 values ([spec_float] of the standard
      library, which has a single NaN, signed zeros and infinities);
    - the comparator table [TEMPR_COMP_OPS] is an association list keyed by
      the operator string;
    - the body of the per-pin [for] loop of [main] is [pin_tick];
    - the [do ... while] loop of [main] is [main_loop], run in a small state
      monad over the observable world (volatile flag, pin levels, trace). *)

From Stdlib Require Import ZArith QArith Qpower List String Bool Lia.
From Stdlib Require Import Floats.SpecFloat.
Import ListNotations.

Local Open Scope string_scope.
Local Open Scope list_scope.
Local Open Scope Z_scope.

(** ** Floating point values *)

Module LongDouble.

(** Every [long double] of the program is the exact widening of a [double]
    (a quotient computed in [double], a JSON number read with [GetDouble],
    the literal [0.0], or [std::nan]).  A value is kept as the sign,
    mantissa and exponent of that [double]; widening does not change the
    number denoted, so it is the identity on this representation. *)
Definition t := spec_float.

Definition prec : Z := 53.
Definition emax : Z := 1024.

Definition nan : t := S754_nan.                    (* std::nan("") *)
Definition zero : t := S754_zero false.            (* 0.0 *)

Definition isnan (x : t) : bool :=
  match x with S754_nan => true | _ => false end.

Definition is_finite (x : t) : bool :=
  match x with
  | S754_zero _ | S754_finite _ _ _ => true
  | _ => false
  end.

(** The C++ comparison operators on floating point operands. *)
Definition eq (a b : t) : bool := SFeqb a b.          (* a == b *)
Definition ne (a b : t) : bool := negb (SFeqb a b).   (* a != b *)
Definition lt (a b : t) : bool := SFltb a b.          (* a <  b *)
Definition gt (a b : t) : bool := SFltb b a.          (* a >  b *)
Definition le (a b : t) : bool := SFleb a b.          (* a <= b *)
Definition ge (a b : t) : bool := SFleb b a.          (* a >= b *)

(** Conversion [int -> double], exact on the whole range of [int]. *)
Definition of_int (n : Z) : t := binary_normalize prec emax n 0 false.

(** Division in [double]. *)
Definition div (a b : t) : t := SFdiv prec emax a b.

(** The rational number a finite value denotes. *)
Definition to_Q (x : t) : Q :=
  match x with
  | S754_finite s m e => (inject_Z (cond_Zopp s (Zpos m)) * 2 ^ e)%Q
  | _ => 0%Q
  end.

(** A well-formed value of the format with [p] bits of precision and
    exponent bound [em]. *)
Definition well_formed (p em : Z) (x : t) : Prop :=
  valid_binary p em x = true.

End LongDouble.

Definition long_double : Type := LongDouble.t.

(** ** The comparator table *)

(** [std::map<std::string, std::function<bool(long double, long double)>>] *)
Definition comparator := long_double -> long_double -> bool.

Definition TEMPR_COMP_OPS : list (string * comparator) :=
  [ ("=",  fun curr target => LongDouble.eq curr target);
    ("<",  fun curr target => LongDouble.lt curr target);
    (">",  fun curr target => LongDouble.gt curr target);
    ("<=", fun curr target => LongDouble.le curr target);
    (">=", fun curr target => LongDouble.ge curr target) ].

(** [std::map::at]: [None] stands for the [std::out_of_range] exception. *)
Fixpoint map_at {V : Type} (m : list (string * V)) (k : string) : option V :=
  match m with
  | [] => None
  | (k', v) :: rest => if String.eqb k' k then Some v else map_at rest k
  end.

(** [std::map::count]: 0 or 1, keys being unique. *)
Definition map_count {V : Type} (m : list (string * V)) (k : string) : Z :=
  match map_at m k with Some _ => 1 | None => 0 end.

(** The ConditionEvaluator of the specification: the comparator looked up
    and applied; [None] when the operator is not in the table. *)
Definition evaluate (op : string) (current threshold : long_double)
  : option bool :=
  match map_at TEMPR_COMP_OPS op with
  | Some f => Some (f current threshold)
  | None => None
  end.

(** ** Pins and their configuration *)

Record GpioPin := mkGpioPin {
  wpi_pin_number : Z;
  output_value : bool;
  condition : string;
  active_on_terminate : bool;
  condition_temp_degC : long_double;
  temp_degC_source : string;
  last_read_temp_degC : long_double
}.

(** One object of the JSON array of the configuration file;
    [match_on_terminate] is the only optional member. *)
Record PinDescriptor := mkPinDescriptor {
  wpi_pin : Z;
  output_val : bool;
  condition_member : string;
  temperature_degC : long_double;
  match_on_terminate : option bool;
  temperature_src : string
}.

Definition parse_pin (o : PinDescriptor) : GpioPin :=
  {| wpi_pin_number := wpi_pin o;
     output_value := output_val o;
     condition := condition_member o;
     condition_temp_degC := temperature_degC o;
     active_on_terminate :=
       match match_on_terminate o with Some b => b | None => false end;
     temp_degC_source := temperature_src o;
     last_read_temp_degC := LongDouble.zero |}.

Definition parse_config (d : list PinDescriptor) : list GpioPin :=
  map parse_pin d.

(** ** Reading a temperature *)

(** What opening and reading a source file can yield. *)
Inductive SourceFile :=
| CannotOpen                 (* [in.is_open()] is false *)
| ReadFails                  (* opened, but [in >> raw_temp] fails *)
| Holds (n : Z).             (* opened, the text is the integer [n] *)

Definition INT_MIN : Z := - 2 ^ 31.
Definition INT_MAX : Z := 2 ^ 31 - 1.

(** [in >> raw_temp] on an [int]: a failed extraction stores 0, a value out
    of range stores the nearest bound. *)
Definition extract_int (f : SourceFile) : Z :=
  match f with
  | Holds n => Z.max INT_MIN (Z.min INT_MAX n)
  | _ => 0
  end.

Definition d1000 : long_double := LongDouble.of_int 1000.  (* 1000.0 *)

Definition read_temp_degC (f : SourceFile) : long_double :=
  match f with
  | CannotOpen => LongDouble.nan
  | _ =>
      let raw_temp := extract_int f in
      LongDouble.div (LongDouble.of_int raw_temp) d1000
  end.

(** ** The output pins (wiringPi) *)

(** The level of every wiringPi pin.  [digitalRead] returns the level last
    written; [pinMode] and [wiringPiSetup] do not change levels. *)
Definition PinLevels := Z -> Z.

Definition digitalRead (levels : PinLevels) (pin : Z) : Z := levels pin.

Definition digitalWrite (levels : PinLevels) (pin value : Z) : PinLevels :=
  fun q => if q =? pin then value else levels q.

(** What the program does to the outside, in order. *)
Inductive Event :=
| Cout_Started
| Cout_Stopped
| Cerr_CannotOpenConfig
| Cerr_NoConditions
| WiringPiSetup
| PinMode (pin : Z)
| ReadTemp (src : string)
| DigitalRead (pin : Z)
| DigitalWrite (pin value : Z)
| Cerr_CannotRead (pin : Z) (src : string)
| Cerr_NotSupported (pin : Z) (cond : string)
| Cout_Change (temp_degC : long_double) (cond : string)
              (threshold : long_double) (pin value : Z)
              (termination_triggered : bool)
| Sleep200ms.

Definition is_write (e : Event) : bool :=
  match e with DigitalWrite _ _ => true | _ => false end.

Definition is_read_failure_report (e : Event) : bool :=
  match e with Cerr_CannotRead _ _ => true | _ => false end.

Definition is_hardware (e : Event) : bool :=
  match e with
  | WiringPiSetup | PinMode _ | DigitalRead _ | DigitalWrite _ _
  | ReadTemp _ => true
  | _ => false
  end.

Definition is_sleep (e : Event) : bool :=
  match e with Sleep200ms => true | _ => false end.

Definition count_events (f : Event -> bool) (l : list Event) : nat :=
  List.length (filter f l).

(** ** One pin, one tick: the body of the [for] loop of [main] *)

Definition set_last_read (p : GpioPin) (t : long_double) : GpioPin :=
  {| wpi_pin_number := wpi_pin_number p;
     output_value := output_value p;
     condition := condition p;
     active_on_terminate := active_on_terminate p;
     condition_temp_degC := condition_temp_degC p;
     temp_degC_source := temp_degC_source p;
     last_read_temp_degC := t |}.

Record TickResult := mkTickResult {
  pin_after : GpioPin;
  levels_after : PinLevels;
  events : list Event
}.

(** [keep_running] is the value the volatile flag has when line 159 reads
    it, [temp_degC] the value [read_temp_degC] returned at line 139.  The two
    [continue] statements leave the pin untouched; [count(...) < 1] is the
    [None] case of the lookup, and in the other case [at] returns the
    comparator that was found. *)
Definition pin_tick (keep_running : Z) (temp_degC : long_double)
    (p : GpioPin) (levels : PinLevels) : TickResult :=
  if LongDouble.ne (last_read_temp_degC p) temp_degC
     && LongDouble.isnan temp_degC
  then
    mkTickResult p levels
      [Cerr_CannotRead (wpi_pin_number p) (temp_degC_source p)]
  else
    match map_at TEMPR_COMP_OPS (condition p) with
    | None =>
        mkTickResult p levels
          [Cerr_NotSupported (wpi_pin_number p) (condition p)]
    | Some op =>
        let terminate_match :=
          active_on_terminate p && (keep_running =? 0) in
        if terminate_match
           || (LongDouble.ne (last_read_temp_degC p) temp_degC
               && op temp_degC (condition_temp_degC p))
        then
          let outp_val := Z.b2z (output_value p) in
          let curr_outp_val := digitalRead levels (wpi_pin_number p) in
          if negb (curr_outp_val =? outp_val) then
            mkTickResult (set_last_read p temp_degC)
              (digitalWrite levels (wpi_pin_number p) outp_val)
              [PinMode (wpi_pin_number p);
               DigitalRead (wpi_pin_number p);
               DigitalWrite (wpi_pin_number p) outp_val;
               Cout_Change temp_degC (condition p) (condition_temp_degC p)
                 (wpi_pin_number p) outp_val terminate_match]
          else
            mkTickResult (set_last_read p temp_degC) levels
              [PinMode (wpi_pin_number p); DigitalRead (wpi_pin_number p)]
        else
          mkTickResult (set_last_read p temp_degC) levels []
    end.

(** ** The world around [main] *)

(** What the environment does: whether a handled signal is delivered before
    the n-th read of the volatile flag, and what a source file yields at the
    n-th temperature read. *)
Record Env := mkEnv {
  signal_delivered : nat -> bool;
  source_file : nat -> string -> SourceFile
}.

Record World := mkWorld {
  keep_running : Z;          (* static volatile sig_atomic_t keep_running *)
  flag_reads : nat;          (* reads of [keep_running] so far *)
  temp_reads : nat;          (* calls of [read_temp_degC] so far *)
  levels : PinLevels;
  trace : list Event
}.

Definition M (A : Type) : Type := World -> A * World.

Definition ret {A} (a : A) : M A := fun w => (a, w).

Definition bind {A B} (m : M A) (k : A -> M B) : M B :=
  fun w => let '(a, w') := m w in k a w'.

Declare Scope monad_scope.
Delimit Scope monad_scope with monad.
Notation "x <- m ;; k" := (bind m (fun x => k))
  (at level 61, m at next level, right associativity) : monad_scope.
Notation "m ;; k" := (bind m (fun _ => k))
  (at level 61, right associativity) : monad_scope.

Definition emit (evs : list Event) : M unit :=
  fun w => (tt, mkWorld (keep_running w) (flag_reads w) (temp_reads w)
                        (levels w) (trace w ++ evs)).

(** A read of the volatile flag: the handler [keep_running = 0] has run if
    a signal was delivered since the previous read. *)
Definition read_keep_running (env : Env) : M Z :=
  fun w =>
    let kr :=
      if signal_delivered env (flag_reads w) then 0 else keep_running w in
    (kr, mkWorld kr (S (flag_reads w)) (temp_reads w) (levels w) (trace w)).

Definition do_read_temp (env : Env) (src : string) : M long_double :=
  fun w =>
    (read_temp_degC (source_file env (temp_reads w) src),
     mkWorld (keep_running w) (flag_reads w) (S (temp_reads w)) (levels w)
             (trace w ++ [ReadTemp src])).

(** The body of the [for] loop on one pin: line 139, then [pin_tick] with
    the value of the flag (the source reads it at line 159, and nothing in
    between depends on it). *)
Definition do_pin_tick (env : Env) (p : GpioPin) : M GpioPin :=
  (temp_degC <- do_read_temp env (temp_degC_source p) ;;
   kr <- read_keep_running env ;;
   fun w =>
     let r := pin_tick kr temp_degC p (levels w) in
     (pin_after r,
      mkWorld (keep_running w) (flag_reads w) (temp_reads w) (levels_after r)
              (trace w ++ events r)))%monad.

(** [for (GpioPin& p : pin_outputs) ...] *)
Fixpoint for_each_pin (env : Env) (pins : list GpioPin) : M (list GpioPin) :=
  match pins with
  | [] => ret []
  | p :: rest =>
      (p' <- do_pin_tick env p ;;
       rest' <- for_each_pin env rest ;;
       ret (p' :: rest'))%monad
  end.

(** [for (unsigned char c = 0; keep_running == 1 && c < 10; ++c) sleep 200ms],
    by the number of slices left. *)
Fixpoint sleep_loop (env : Env) (slices_left : nat) : M unit :=
  (kr <- read_keep_running env ;;
   match slices_left with
   | O => ret tt
   | S n =>
       if kr =? 1 then (emit [Sleep200ms] ;; sleep_loop env n) else ret tt
   end)%monad.

(** One iteration of the [do ... while (!break_loop)] loop. *)
Definition loop_body (env : Env) (break_loop : bool) (pins : list GpioPin)
  : M (bool * list GpioPin) :=
  (kr <- read_keep_running env ;;
   let break_loop := if kr =? 0 then true else break_loop in
   pins' <- for_each_pin env pins ;;
   sleep_loop env 10 ;;
   ret (break_loop, pins'))%monad.

(** The loop, with [fuel] bounding the number of iterations; [None] when the
    loop is still running after [fuel] iterations. *)
Fixpoint main_loop (env : Env) (fuel : nat) (break_loop : bool)
    (pins : list GpioPin) : M (option (list GpioPin)) :=
  match fuel with
  | O => ret None
  | S fuel' =>
      (r <- loop_body env break_loop pins ;;
       let '(break_loop', pins') := r in
       if negb break_loop' then main_loop env fuel' break_loop' pins'
       else ret (Some pins'))%monad
  end.

Fixpoint init_pins (pins : list GpioPin) : M unit :=
  match pins with
  | [] => ret tt
  | p :: rest => (emit [PinMode (wpi_pin_number p)] ;; init_pins rest)%monad
  end.

(** [main]: [config] is [None] when the configuration file cannot be opened,
    otherwise the array it parses to.  The result is the exit status, or
    [None] when the loop is still running after [fuel] iterations. *)
Definition main (env : Env) (config : option (list PinDescriptor))
    (fuel : nat) : M (option Z) :=
  (emit [Cout_Started] ;;
   match config with
   | None => emit [Cerr_CannotOpenConfig] ;; ret (Some 1)
   | Some d =>
       let pin_outputs := parse_config d in
       if Nat.eqb (List.length pin_outputs) 0 then
         emit [Cerr_NoConditions] ;; ret (Some 2)
       else
         emit [WiringPiSetup] ;;
         init_pins pin_outputs ;;
         r <- main_loop env fuel false pin_outputs ;;
         match r with
         | None => ret None
         | Some _ => emit [Cout_Stopped] ;; ret (Some 0)
         end
   end)%monad.

(** The world when [main] starts. *)
Definition initial_world (levels : PinLevels) : World :=
  mkWorld 1 0 0 levels [].

(** ** A tick of all pins, as a function *)

Record FullTick := mkFullTick {
  ft_pins : list GpioPin;
  ft_levels : PinLevels;
  ft_events : list Event
}.

(** Every pin of [pins] ticked once, in order, each with the flag at [kr];
    [reads] is the number of temperature reads made before. *)
Fixpoint full_tick (env : Env) (kr : Z) (reads : nat) (pins : list GpioPin)
    (lv : PinLevels) : FullTick :=
  match pins with
  | [] => mkFullTick [] lv []
  | p :: rest =>
      let temp_degC :=
        read_temp_degC (source_file env reads (temp_degC_source p)) in
      let r := pin_tick kr temp_degC p lv in
      let r' := full_tick env kr (S reads) rest (levels_after r) in
      mkFullTick (pin_after r :: ft_pins r') (ft_levels r')
        (ReadTemp (temp_degC_source p) :: events r ++ ft_events r')
  end.

(** An I/O error in the words of the specification: the source cannot be
    opened, or reading it fails. *)
Definition io_error (f : SourceFile) : Prop :=
  match f with Holds _ => False | _ => True end.

Definition is_read_temp (e : Event) : bool :=
  match e with ReadTemp _ => true | _ => false end.

(** The world with more events in its trace. *)
Definition with_events (w : World) (evs : list Event) : World :=
  mkWorld (keep_running w) (flag_reads w) (temp_reads w) (levels w)
          (trace w ++ evs).

(** What [main] does before it enters the loop. *)
Definition setup_events (pins : list GpioPin) : list Event :=
  Cout_Started :: WiringPiSetup
  :: map (fun p => PinMode (wpi_pin_number p)) pins.

(** When a signal is delivered before read [n] of the flag, the flag is 0
    from that read on. *)
Definition flag_invariant (n : nat) (w : World) : Prop :=
  (n < flag_reads w)%nat -> keep_running w = 0.

(** [w'] is a later world than [w]: more reads of the flag, a longer trace,
    and the flag still set if it had to be. *)
Definition progress (n : nat) (w w' : World) : Prop :=
  (flag_reads w <= flag_reads w')%nat
  /\ (flag_invariant n w -> flag_invariant n w')
  /\ exists evs, trace w' = trace w ++ evs.

(** ** Concrete inputs used by the examples *)

(** 50.0, 45.0 and 55.0 as [double]s. *)
Definition d50 : long_double := LongDouble.of_int 50.
Definition d45 : long_double := LongDouble.of_int 45.
Definition d55 : long_double := LongDouble.of_int 55.

(** Scenario 1 of the specification:
    [{wpi_pin:7, output_val:true, condition:">", temperature_degC:50.0,
      temperature_src:"A"}]. *)
Definition descr7 : PinDescriptor :=
  mkPinDescriptor 7 true ">" d50 None "A".

Definition descr7_terminate : PinDescriptor :=
  mkPinDescriptor 7 true ">" d50 (Some true) "A".

Definition descr7_unsupported : PinDescriptor :=
  mkPinDescriptor 7 true "!=" d50 (Some true) "A".

Definition pin7 : GpioPin := parse_pin descr7.
Definition pin7_terminate : GpioPin := parse_pin descr7_terminate.
Definition pin7_unsupported : GpioPin := parse_pin descr7_unsupported.

Definition all_low : PinLevels := fun _ => 0.
Definition all_high : PinLevels := fun _ => 1.

(** ** Auxiliary notions for the statements *)

(** The operators of the specification and, in its words, the standard
    numeric comparison each one stands for. *)
Definition supported_operators : list string := ["="; "<"; ">"; "<="; ">="].

Definition standard_comparison (op : string) (a b : Q) : Prop :=
  if String.eqb op "=" then (a == b)%Q
  else if String.eqb op "<" then (a < b)%Q
  else if String.eqb op ">" then (a > b)%Q
  else if String.eqb op "<=" then (a <= b)%Q
  else if String.eqb op ">=" then (a >= b)%Q
  else False.

(** The test of line 160, given the comparator found for the pin. *)
Definition decided (kr : Z) (temp : long_double) (p : GpioPin)
    (op : comparator) : bool :=
  (active_on_terminate p && (kr =? 0))
  || (LongDouble.ne (last_read_temp_degC p) temp
      && op temp (condition_temp_degC p)).

(** The shape of the events of one tick of one pin. *)
Inductive tick_shape (p : GpioPin) (lv : PinLevels) : TickResult -> Prop :=
| shape_read_failure :
    tick_shape p lv
      (mkTickResult p lv
         [Cerr_CannotRead (wpi_pin_number p) (temp_degC_source p)])
| shape_unsupported :
    tick_shape p lv
      (mkTickResult p lv
         [Cerr_NotSupported (wpi_pin_number p) (condition p)])
| shape_idle t :
    tick_shape p lv (mkTickResult (set_last_read p t) lv [])
| shape_same t :
    digitalRead lv (wpi_pin_number p) = Z.b2z (output_value p) ->
    tick_shape p lv
      (mkTickResult (set_last_read p t) lv
         [PinMode (wpi_pin_number p); DigitalRead (wpi_pin_number p)])
| shape_write t tm :
    digitalRead lv (wpi_pin_number p) <> Z.b2z (output_value p) ->
    tick_shape p lv
      (mkTickResult (set_last_read p t)
         (digitalWrite lv (wpi_pin_number p) (Z.b2z (output_value p)))
         [PinMode (wpi_pin_number p); DigitalRead (wpi_pin_number p);
          DigitalWrite (wpi_pin_number p) (Z.b2z (output_value p));
          Cout_Change t (condition p) (condition_temp_degC p)
            (wpi_pin_number p) (Z.b2z (output_value p)) tm]).

(** A signal delivered before read [n] of the flag, every source file
    yielding [f]. *)
Definition env_signal_at (n : nat) (f : SourceFile) : Env :=
  mkEnv (fun k => Nat.eqb k n) (fun _ _ => f).

(** ** Notions for the further properties *)

(** The comparison [op] holds of [x] and [y]: the comparator is in the table
    and returns true. *)
Definition holds (op : string) (x y : long_double) : Prop :=
  evaluate op x y = Some true.

(** [p'] is [p] after some ticks: untouched, or with [lastReading] replaced
    by a reading that is not NaN, which needs a supported operator. *)
Definition evolves (p p' : GpioPin) : Prop :=
  p' = p
  \/ exists t, LongDouble.isnan t = false
               /\ 1 <= map_count TEMPR_COMP_OPS (condition p)
               /\ p' = set_last_read p t.

(** [e] is something a tick of [p] can do. *)
Definition event_of_pin (p : GpioPin) (e : Event) : Prop :=
  match e with
  | ReadTemp src => src = temp_degC_source p
  | Cerr_CannotRead pin src =>
      pin = wpi_pin_number p /\ src = temp_degC_source p
  | Cerr_NotSupported pin cond =>
      pin = wpi_pin_number p /\ cond = condition p
      /\ map_count TEMPR_COMP_OPS (condition p) < 1
  | PinMode pin | DigitalRead pin =>
      pin = wpi_pin_number p
      /\ 1 <= map_count TEMPR_COMP_OPS (condition p)
  | DigitalWrite pin value =>
      pin = wpi_pin_number p /\ value = Z.b2z (output_value p)
      /\ 1 <= map_count TEMPR_COMP_OPS (condition p)
  | Cout_Change _ cond threshold pin value _ =>
      pin = wpi_pin_number p /\ value = Z.b2z (output_value p)
      /\ cond = condition p /\ threshold = condition_temp_degC p
      /\ 1 <= map_count TEMPR_COMP_OPS (condition p)
  | _ => False
  end.

(** [e] is something the loop of [main] can do with the pins [pins]. *)
Definition loop_event (pins : list GpioPin) (e : Event) : Prop :=
  e = Sleep200ms \/ Exists (fun p => event_of_pin p e) pins.

Definition never_nan (pins : list GpioPin) : Prop :=
  Forall (fun p => LongDouble.isnan (last_read_temp_degC p) = false) pins.

(** No signal is ever delivered. *)
Definition quiet (env : Env) : Prop :=
  forall n, signal_delivered env n = false.

Definition env_quiet (f : SourceFile) : Env :=
  mkEnv (fun _ => false) (fun _ _ => f).

(** * Properties *)

(** ** Comparisons and NaN *)

Lemma SFcompare_nan_r x : SFcompare x S754_nan = None.
Proof. destruct x; reflexivity. Qed.

Lemma isnan_true x : LongDouble.isnan x = true -> x = LongDouble.nan.
Proof. destruct x; simpl; intros H; try discriminate; reflexivity. Qed.

Lemma ne_nan_r x : LongDouble.ne x LongDouble.nan = true.
Proof.
  unfold LongDouble.ne, LongDouble.nan, SFeqb.
  rewrite SFcompare_nan_r. reflexivity.
Qed.

Lemma SFcompare_refl x :
  LongDouble.isnan x = false -> SFcompare x x = Some Eq.
Proof.
  destruct x as [s|s| |s m e]; simpl; intros H; try discriminate.
  - reflexivity.
  - destruct s; reflexivity.
  - rewrite Z.compare_refl, Pos.compare_cont_refl. destruct s; reflexivity.
Qed.

Lemma ne_same x : LongDouble.isnan x = false -> LongDouble.ne x x = false.
Proof.
  intros H. unfold LongDouble.ne, SFeqb.
  rewrite (SFcompare_refl x H). reflexivity.
Qed.

Lemma map_count_lt_1 {V} (m : list (string * V)) k :
  map_count m k < 1 <-> map_at m k = None.
Proof.
  unfold map_count. destruct (map_at m k); split; intros H;
    try reflexivity; try discriminate; lia.
Qed.

Lemma map_count_ge_1 {V} (m : list (string * V)) k :
  1 <= map_count m k <-> exists v, map_at m k = Some v.
Proof.
  unfold map_count. destruct (map_at m k) as [v|]; split; intros H.
  - now exists v.
  - lia.
  - lia.
  - destruct H as [v H]. discriminate.
Qed.

(** ** The comparators against the rational value of their operands *)

Lemma digits2_pos_bounds m :
  2 ^ (Zpos (digits2_pos m) - 1) <= Zpos m < 2 ^ Zpos (digits2_pos m).
Proof.
  induction m as [m IH|m IH|]; simpl digits2_pos.
  - rewrite Pos2Z.inj_succ.
    replace (Z.succ (Zpos (digits2_pos m)) - 1)
      with (Z.succ (Zpos (digits2_pos m) - 1)) by lia.
    rewrite !Z.pow_succ_r by lia. lia.
  - rewrite Pos2Z.inj_succ.
    replace (Z.succ (Zpos (digits2_pos m)) - 1)
      with (Z.succ (Zpos (digits2_pos m) - 1)) by lia.
    rewrite !Z.pow_succ_r by lia. lia.
  - simpl. lia.
Qed.

Lemma bounded_exponent_lt p em m1 e1 m2 e2 :
  bounded p em m1 e1 = true -> bounded p em m2 e2 = true ->
  e1 < e2 -> Zpos m1 < Zpos m2 * 2 ^ (e2 - e1).
Proof.
  unfold bounded, canonical_mantissa, fexp.
  intros H1 H2 He.
  apply andb_prop in H1, H2. destruct H1 as [H1 _], H2 as [H2 _].
  apply Z.eqb_eq in H1, H2.
  pose proof (digits2_pos_bounds m1) as [_ B1].
  pose proof (digits2_pos_bounds m2) as [B2 _].
  set (d1 := Zpos (digits2_pos m1)) in *.
  set (d2 := Zpos (digits2_pos m2)) in *.
  assert (D1 : d1 <= p) by lia.
  assert (D2 : d2 = p) by lia.
  assert (P1 : 2 ^ d1 <= 2 ^ p) by (apply Z.pow_le_mono_r; lia).
  assert (P2 : 2 ^ 1 <= 2 ^ (e2 - e1)) by (apply Z.pow_le_mono_r; lia).
  assert (P3 : 2 ^ p = 2 ^ (d2 - 1) * 2).
  { rewrite <- D2. replace d2 with (Z.succ (d2 - 1)) at 1 by lia.
    rewrite Z.pow_succ_r by (unfold d2; lia). lia. }
  change (2 ^ 1) with 2 in P2.
  assert (0 < 2 ^ (d2 - 1)) by (apply Z.pow_pos_nonneg; unfold d2; lia).
  nia.
Qed.

Section Rational_value.
Local Open Scope Q_scope.

Lemma Qcompare_mult_r x y c : 0 < c -> (x * c ?= y * c) = (x ?= y).
Proof.
  intros Hc. destruct (Qcompare_spec x y) as [H|H|H].
  - apply Qeq_alt. now rewrite H.
  - apply Qlt_alt. now apply Qmult_lt_compat_r.
  - apply Qgt_alt. now apply Qmult_lt_compat_r.
Qed.

Lemma Qcompare_inject_Z a b : (inject_Z a ?= inject_Z b) = (a ?= b)%Z.
Proof. unfold Qcompare, inject_Z; simpl. now rewrite !Z.mul_1_r. Qed.

Lemma scaled_compare a b e1 e2 : (e1 <= e2)%Z ->
  (inject_Z a * 2 ^ e1 ?= inject_Z b * 2 ^ e2) = (a ?= b * 2 ^ (e2 - e1))%Z.
Proof.
  intros He.
  assert (E : inject_Z b * 2 ^ e2 == inject_Z (b * 2 ^ (e2 - e1)) * 2 ^ e1).
  { rewrite inject_Z_mult, Zpower_Qpower by lia.
    replace e2 with ((e2 - e1) + e1)%Z at 1 by lia.
    rewrite Qpower_plus by discriminate. change (inject_Z 2) with 2. ring. }
  rewrite E, Qcompare_mult_r by (apply Qpower_0_lt; reflexivity).
  apply Qcompare_inject_Z.
Qed.

Lemma compare_0_scaled b e : (0 ?= inject_Z b * 2 ^ e) = (0 ?= b)%Z.
Proof.
  assert (E : 0 == 0 * 2 ^ e) by ring.
  rewrite (Qcompare_comp _ _ E _ _ (Qeq_refl _)).
  rewrite Qcompare_mult_r by (apply Qpower_0_lt; reflexivity).
  apply (Qcompare_inject_Z 0 b).
Qed.

Lemma compare_signed_lt s1 s2 (m1 m2 : positive) k :
  (Zpos m1 < Zpos m2 * k)%Z ->
  (cond_Zopp s1 (Zpos m1) ?= cond_Zopp s2 (Zpos m2) * k)%Z
  = match s1, s2 with
    | true, false => Lt
    | false, true => Gt
    | false, false => Lt
    | true, true => Gt
    end.
Proof.
  intros H. destruct s1, s2; unfold cond_Zopp.
  - apply Z.compare_gt_iff. lia.
  - apply Z.compare_lt_iff. lia.
  - apply Z.compare_gt_iff. lia.
  - apply Z.compare_lt_iff. lia.
Qed.

Lemma SFcompare_correct p em x y :
  valid_binary p em x = true -> valid_binary p em y = true ->
  LongDouble.is_finite x = true -> LongDouble.is_finite y = true ->
  SFcompare x y = Some (LongDouble.to_Q x ?= LongDouble.to_Q y).
Proof.
  destruct x as [sx|sx| |sx mx ex], y as [sy|sy| |sy my ey];
    simpl; intros Vx Vy Fx Fy; try discriminate; f_equal.
  - rewrite compare_0_scaled. now destruct sy.
  - rewrite <- Qcompare_antisym, compare_0_scaled. now destruct sx.
  - destruct (Z.compare_spec ex ey) as [E|E|E].
    + subst ey. rewrite scaled_compare by lia.
      rewrite Z.sub_diag, Z.mul_1_r.
      destruct sx, sy; reflexivity.
    + rewrite scaled_compare by lia.
      rewrite (compare_signed_lt sx sy mx my)
        by (now apply (bounded_exponent_lt p em)).
      now destruct sx, sy.
    + rewrite <- Qcompare_antisym, scaled_compare by lia.
      rewrite (compare_signed_lt sy sx my mx)
        by (now apply (bounded_exponent_lt p em)).
      now destruct sx, sy.
Qed.


End Rational_value.

Lemma SFcompare_nan x y :
  LongDouble.isnan x = true \/ LongDouble.isnan y = true ->
  SFcompare x y = None.
Proof.
  intros [H|H]; apply isnan_true in H; subst.
  - reflexivity.
  - apply SFcompare_nan_r.
Qed.

(** C2: for each of the five operators the comparator is found; on finite
    operands that are well-formed values of one format its result is the
    standard comparison of the numbers they denote, and it is false as soon
    as an operand is NaN, also for [=]. *)
Theorem evaluate_standard_comparison p em op x y :
  In op supported_operators ->
  exists b, evaluate op x y = Some b
    /\ (LongDouble.well_formed p em x -> LongDouble.well_formed p em y ->
        LongDouble.is_finite x = true -> LongDouble.is_finite y = true ->
        (b = true <->
         standard_comparison op (LongDouble.to_Q x) (LongDouble.to_Q y)))
    /\ (LongDouble.isnan x = true \/ LongDouble.isnan y = true -> b = false).
Proof.
  intros Hop.
  assert (Hnan : LongDouble.isnan x = true \/ LongDouble.isnan y = true ->
                 SFcompare x y = None /\ SFcompare y x = None).
  { intros H. split; apply SFcompare_nan; tauto. }
  simpl in Hop.
  destruct Hop as [<-|[<-|[<-|[<-|[<-|[]]]]]]; eexists;
    (split; [reflexivity|]); (split; [intros Vx Vy Fx Fy|intros N]);
    unfold standard_comparison; simpl;
    unfold LongDouble.eq, LongDouble.lt, LongDouble.gt, LongDouble.le,
      LongDouble.ge, SFeqb, SFltb, SFleb.
  all: try (destruct (Hnan N) as [E1 E2]; rewrite ?E1, ?E2; reflexivity).
  - rewrite (SFcompare_correct p em x y) by assumption.
    rewrite Qeq_alt. destruct (_ ?= _)%Q; intuition congruence.
  - rewrite (SFcompare_correct p em x y) by assumption.
    rewrite Qlt_alt. destruct (_ ?= _)%Q; intuition congruence.
  - rewrite (SFcompare_correct p em y x) by assumption.
    rewrite Qlt_alt. destruct (_ ?= _)%Q; intuition congruence.
  - rewrite (SFcompare_correct p em x y) by assumption.
    rewrite Qle_alt. destruct (_ ?= _)%Q; intuition congruence.
  - rewrite (SFcompare_correct p em y x) by assumption.
    rewrite Qle_alt. destruct (_ ?= _)%Q; intuition congruence.
Qed.

Lemma evaluate_standard_comparison_witness :
  (LongDouble.to_Q d45 < LongDouble.to_Q d50)%Q
  /\ evaluate "<" LongDouble.nan d50 = Some false.
Proof.
  split.
  - destruct (evaluate_standard_comparison LongDouble.prec LongDouble.emax
                "<" d45 d50) as [b [Hb [Hfin _]]].
    + simpl. tauto.
    + injection Hb as <-.
      apply (Hfin eq_refl eq_refl eq_refl eq_refl). reflexivity.
  - destruct (evaluate_standard_comparison LongDouble.prec LongDouble.emax
                "<" LongDouble.nan d50) as [b [Hb [_ Hnan]]].
    + simpl. tauto.
    + rewrite Hb. f_equal. apply Hnan. left. reflexivity.
Defined.

(** ** The three ways through [pin_tick] *)

Lemma pin_tick_read_failure kr temp p lv :
  LongDouble.isnan temp = true ->
  pin_tick kr temp p lv =
  mkTickResult p lv [Cerr_CannotRead (wpi_pin_number p) (temp_degC_source p)].
Proof.
  intros H. unfold pin_tick.
  rewrite (isnan_true _ H), ne_nan_r. reflexivity.
Qed.

Lemma pin_tick_unsupported kr temp p lv :
  LongDouble.isnan temp = false ->
  map_at TEMPR_COMP_OPS (condition p) = None ->
  pin_tick kr temp p lv =
  mkTickResult p lv [Cerr_NotSupported (wpi_pin_number p) (condition p)].
Proof.
  intros Hn Hc. unfold pin_tick.
  rewrite Hn, andb_false_r, Hc. reflexivity.
Qed.

Lemma pin_tick_supported kr temp p lv op :
  LongDouble.isnan temp = false ->
  map_at TEMPR_COMP_OPS (condition p) = Some op ->
  pin_tick kr temp p lv =
  if decided kr temp p op then
    if negb (digitalRead lv (wpi_pin_number p) =? Z.b2z (output_value p))
    then
      mkTickResult (set_last_read p temp)
        (digitalWrite lv (wpi_pin_number p) (Z.b2z (output_value p)))
        [PinMode (wpi_pin_number p);
         DigitalRead (wpi_pin_number p);
         DigitalWrite (wpi_pin_number p) (Z.b2z (output_value p));
         Cout_Change temp (condition p) (condition_temp_degC p)
           (wpi_pin_number p) (Z.b2z (output_value p))
           (active_on_terminate p && (kr =? 0))]
    else
      mkTickResult (set_last_read p temp) lv
        [PinMode (wpi_pin_number p); DigitalRead (wpi_pin_number p)]
  else mkTickResult (set_last_read p temp) lv [].
Proof.
  intros Hn Hc. unfold pin_tick, decided.
  rewrite Hn, andb_false_r, Hc. reflexivity.
Qed.

Lemma pin_tick_shape kr temp p lv : tick_shape p lv (pin_tick kr temp p lv).
Proof.
  destruct (LongDouble.isnan temp) eqn:Hn.
  - rewrite pin_tick_read_failure by assumption. constructor.
  - destruct (map_at TEMPR_COMP_OPS (condition p)) as [op|] eqn:Hc.
    + rewrite (pin_tick_supported kr temp p lv op Hn Hc).
      destruct (decided kr temp p op); [|constructor].
      destruct (digitalRead lv (wpi_pin_number p) =? Z.b2z (output_value p))
        eqn:E; simpl.
      * apply Z.eqb_eq in E. now constructor.
      * apply Z.eqb_neq in E. now constructor.
    + rewrite pin_tick_unsupported by assumption. constructor.
Qed.

(** ** [read_temp_degC] *)

Lemma iter_pos_invariant {A} (P : A -> Prop) (f : A -> A) :
  (forall a, P a -> P (f a)) -> forall n a, P a -> P (iter_pos f n a).
Proof.
  intros Hf. induction n as [n IH|n IH|]; intros a Ha; simpl.
  - apply IH, IH, Hf, Ha.
  - apply IH, IH, Ha.
  - apply Hf, Ha.
Qed.

Lemma shr_1_nonneg mrs : 0 <= shr_m mrs -> 0 <= shr_m (shr_1 mrs).
Proof.
  destruct mrs as [m r s]. simpl.
  destruct m as [|[q|q|]|[q|q|]]; simpl; lia.
Qed.

Lemma shr_nonneg mrs e n : 0 <= shr_m mrs -> 0 <= shr_m (fst (shr mrs e n)).
Proof.
  intros H. unfold shr. destruct n; simpl; try assumption.
  apply (iter_pos_invariant (fun r => 0 <= shr_m r)); [apply shr_1_nonneg|assumption].
Qed.

Lemma shr_record_of_loc_m m l : shr_m (shr_record_of_loc m l) = m.
Proof. destruct l as [|[]]; reflexivity. Qed.

Lemma shr_fexp_nonneg p em m e l :
  0 <= m -> 0 <= shr_m (fst (shr_fexp p em m e l)).
Proof.
  intros H. unfold shr_fexp. apply shr_nonneg.
  now rewrite shr_record_of_loc_m.
Qed.

Lemma round_nearest_even_nonneg m l : 0 <= m -> 0 <= round_nearest_even m l.
Proof.
  intros H. unfold round_nearest_even.
  destruct l as [|[]]; try destruct (Z.even m); lia.
Qed.

Lemma binary_round_aux_not_nan p em sx mx ex lx :
  0 <= mx -> LongDouble.isnan (binary_round_aux p em sx mx ex lx) = false.
Proof.
  intros H. unfold binary_round_aux.
  pose proof (shr_fexp_nonneg p em mx ex lx H) as H1.
  destruct (shr_fexp p em mx ex lx) as [mrs' e']. simpl in H1.
  pose proof (shr_fexp_nonneg p em _ e' loc_Exact
                (round_nearest_even_nonneg _ (loc_of_shr_record mrs') H1)) as H2.
  destruct (shr_fexp p em _ e' loc_Exact) as [mrs'' e'']. simpl in H2.
  destruct (shr_m mrs''); try lia; try reflexivity.
  destruct (e'' <=? em - p); reflexivity.
Qed.

Lemma of_int_not_nan n : LongDouble.isnan (LongDouble.of_int n) = false.
Proof.
  unfold LongDouble.of_int, binary_normalize.
  destruct n as [|m|m]; [reflexivity| |];
    unfold binary_round;
    destruct (shl_align _ _ _) as [mz ez];
    apply binary_round_aux_not_nan; lia.
Qed.

Lemma d1000_finite : exists m e, d1000 = S754_finite false m e.
Proof. vm_compute. eauto. Qed.

Lemma div_d1000_not_nan x :
  LongDouble.isnan x = false ->
  LongDouble.isnan (LongDouble.div x d1000) = false.
Proof.
  destruct d1000_finite as [my [ey ->]].
  intros Hx. unfold LongDouble.div.
  destruct x as [s|s| |s m e]; try discriminate; try reflexivity.
  unfold SFdiv.
  destruct (SFdiv_core_binary _ _ _ _ _ _) as [[mz ez] lz] eqn:E.
  apply binary_round_aux_not_nan.
  unfold SFdiv_core_binary in E.
  match type of E with
  | context [Z.div_eucl ?a ?b] =>
      pose proof (Z.div_eucl_eq a b ltac:(lia)) as Hq;
      pose proof (Z.mod_pos_bound a b ltac:(lia)) as Hr;
      assert (Ha : 0 <= a);
      [|unfold Z.modulo in Hr; destruct (Z.div_eucl a b) as [q r]]
  end.
  - destruct (_ - _ - _)%Z eqn:Es; try lia. apply Z.shiftl_nonneg. lia.
  - injection E as <- _ _. nia.
Qed.

(** C9 (as stated, refuted): a source that opens but cannot be read is an
    I/O error, and the result is 0.0, not NaN. *)
Lemma read_failure_after_open_is_not_nan :
  io_error ReadFails
  /\ LongDouble.isnan (read_temp_degC ReadFails) = false
  /\ read_temp_degC ReadFails = LongDouble.zero.
Proof. vm_compute. repeat split. Qed.

(** C9 (amended): the result is NaN exactly when the source cannot be
    opened; when it opens, the result is the [int] extracted (0 when the
    extraction fails, the nearest bound when the text is out of range)
    divided by 1000.0 in [double]. *)
Theorem read_temp_degC_nan_iff_cannot_open f :
  (LongDouble.isnan (read_temp_degC f) = true <-> f = CannotOpen)
  /\ (f <> CannotOpen ->
      read_temp_degC f
      = LongDouble.div (LongDouble.of_int (extract_int f)) d1000)
  /\ (forall n, f = Holds n -> INT_MIN <= n <= INT_MAX ->
      read_temp_degC f = LongDouble.div (LongDouble.of_int n) d1000).
Proof.
  split; [|split].
  - split.
    + intros H. destruct f; [reflexivity| |]; exfalso;
        unfold read_temp_degC in H;
        rewrite div_d1000_not_nan in H by apply of_int_not_nan;
        discriminate.
    + intros ->. reflexivity.
  - intros H. destruct f; [contradiction| |]; reflexivity.
  - intros n -> Hn. unfold read_temp_degC, extract_int.
    rewrite Z.min_r, Z.max_r by lia. reflexivity.
Qed.

Lemma read_temp_degC_nan_iff_cannot_open_witness :
  read_temp_degC (Holds 55000)
  = LongDouble.div (LongDouble.of_int 55000) d1000
  /\ LongDouble.eq (read_temp_degC (Holds 55000)) d55 = true.
Proof.
  split; [|reflexivity].
  destruct (read_temp_degC_nan_iff_cannot_open (Holds 55000)) as [_ [_ H]].
  apply (H 55000); [reflexivity|].
  unfold INT_MIN, INT_MAX. lia.
Defined.

(** ** Claims about one tick of one pin *)

(** C1 (as stated, refuted): [lastReading] is not the reading after a tick
    whose read failed, nor after a tick of a pin whose operator is not
    supported: both [continue] statements skip the assignment of line 178. *)
Lemma last_reading_not_always_updated :
  last_read_temp_degC
    (pin_after (pin_tick 1 LongDouble.nan pin7 all_low)) <> LongDouble.nan
  /\ last_read_temp_degC
       (pin_after (pin_tick 1 d45 pin7_unsupported all_low)) <> d45.
Proof. split; vm_compute; discriminate. Qed.

(** C1 (amended): on a tick whose read did not fail, [lastReading] equals
    the reading after the tick when the operator is supported (whether or
    not the output changed), and is left as it was when the operator is not
    supported. *)
Theorem last_reading_after_tick kr temp p lv :
  LongDouble.isnan temp = false ->
  (1 <= map_count TEMPR_COMP_OPS (condition p) ->
   last_read_temp_degC (pin_after (pin_tick kr temp p lv)) = temp)
  /\ (map_count TEMPR_COMP_OPS (condition p) < 1 ->
      last_read_temp_degC (pin_after (pin_tick kr temp p lv))
      = last_read_temp_degC p).
Proof.
  intros Hn. split; intros Hc.
  - apply map_count_ge_1 in Hc. destruct Hc as [op Hc].
    rewrite (pin_tick_supported kr temp p lv op Hn Hc).
    destruct (decided kr temp p op); [|reflexivity].
    destruct (negb _); reflexivity.
  - apply map_count_lt_1 in Hc.
    rewrite pin_tick_unsupported by assumption. reflexivity.
Qed.

Lemma last_reading_after_tick_witness :
  last_read_temp_degC (pin_after (pin_tick 1 d55 pin7 all_low)) = d55
  /\ last_read_temp_degC (pin_after (pin_tick 1 d55 pin7_unsupported all_low))
     = LongDouble.zero.
Proof.
  split.
  - apply (last_reading_after_tick 1 d55 pin7 all_low); vm_compute;
      [reflexivity | discriminate].
  - apply (last_reading_after_tick 1 d55 pin7_unsupported all_low);
      vm_compute; reflexivity.
Defined.

(** C3 (the code at the failing input): a source that cannot be read on two
    consecutive ticks is reported on both of them, and [lastReading] still
    holds the initial 0.0 afterwards; a run of [main] whose four ticks all
    fail to read the source prints four reports. *)
Theorem read_failure_reported_on_each_tick :
  (let r1 := pin_tick 1 LongDouble.nan pin7 all_low in
   let r2 := pin_tick 1 LongDouble.nan (pin_after r1) (levels_after r1) in
   count_events is_read_failure_report (events r1 ++ events r2) = 2%nat
   /\ last_read_temp_degC (pin_after r2) = LongDouble.zero)
  /\ (let r := main (env_signal_at 30 CannotOpen) (Some [descr7]) 10
                 (initial_world all_low) in
      fst r = Some 0
      /\ count_events is_read_temp (trace (snd r)) = 4%nat
      /\ count_events is_read_failure_report (trace (snd r)) = 4%nat).
Proof. vm_compute. repeat split. Qed.

(** C4: a tick writes to a pin at most once, a write carries the configured
    level and happens only when the level read back differs from it, the
    levels change by that write only, and nothing is written when the pin
    already has the level. *)
Theorem at_most_one_write_and_only_on_change kr temp p lv :
  let r := pin_tick kr temp p lv in
  (count_events is_write (events r) <= 1)%nat
  /\ (forall pin v, In (DigitalWrite pin v) (events r) ->
       pin = wpi_pin_number p /\ v = Z.b2z (output_value p)
       /\ digitalRead lv pin <> v
       /\ levels_after r = digitalWrite lv pin v)
  /\ (count_events is_write (events r) = 0%nat -> levels_after r = lv)
  /\ (digitalRead lv (wpi_pin_number p) = Z.b2z (output_value p) ->
      count_events is_write (events r) = 0%nat /\ levels_after r = lv).
Proof.
  intros r. subst r.
  destruct (pin_tick_shape kr temp p lv) as [| |t|t Hs|t tm Hd];
    unfold count_events; simpl.
  - split; [lia|]. split; [|split; [reflexivity|split; reflexivity]].
    intros pin v [H|[]]. discriminate.
  - split; [lia|]. split; [|split; [reflexivity|split; reflexivity]].
    intros pin v [H|[]]. discriminate.
  - split; [lia|]. split; [|split; [reflexivity|split; reflexivity]].
    intros pin v [].
  - split; [lia|]. split; [|split; [reflexivity|split; reflexivity]].
    intros pin v [H|[H|[]]]; discriminate.
  - split; [lia|]. split; [|split; [discriminate|intros H; contradiction]].
    intros pin v [H|[H|[H|[H|[]]]]]; try discriminate.
    injection H as <- <-. repeat split; assumption.
Qed.

Lemma at_most_one_write_and_only_on_change_witness :
  count_events is_write (events (pin_tick 1 d55 pin7 all_high)) = 0%nat
  /\ levels_after (pin_tick 1 d55 pin7 all_high) = all_high.
Proof.
  apply (at_most_one_write_and_only_on_change 1 d55 pin7 all_high).
  reflexivity.
Defined.

(** C5 (as stated, refuted): on a shutdown tick a pin with
    [match_on_terminate] whose read failed, or whose operator is not
    supported, keeps the level it had. *)
Lemma terminate_not_always_forced :
  active_on_terminate pin7_terminate = true
  /\ digitalRead (levels_after (pin_tick 0 LongDouble.nan pin7_terminate
                                         all_low)) 7
     <> Z.b2z (output_value pin7_terminate)
  /\ active_on_terminate pin7_unsupported = true
  /\ digitalRead (levels_after (pin_tick 0 d55 pin7_unsupported all_low)) 7
     <> Z.b2z (output_value pin7_unsupported).
Proof. vm_compute. repeat split; discriminate. Qed.

(** C5 (amended): on a shutdown tick, a pin with [match_on_terminate] whose
    read did not fail and whose operator is supported has its configured
    level afterwards, whatever the comparison of the reading with the
    threshold gives. *)
Theorem terminate_forces_output kr temp p lv :
  active_on_terminate p = true ->
  kr = 0 ->
  LongDouble.isnan temp = false ->
  1 <= map_count TEMPR_COMP_OPS (condition p) ->
  digitalRead (levels_after (pin_tick kr temp p lv)) (wpi_pin_number p)
  = Z.b2z (output_value p).
Proof.
  intros Ha Hk Hn Hc. apply map_count_ge_1 in Hc. destruct Hc as [op Hc].
  rewrite (pin_tick_supported kr temp p lv op Hn Hc).
  unfold decided. rewrite Ha, Hk. simpl.
  destruct (digitalRead lv (wpi_pin_number p) =? Z.b2z (output_value p))
    eqn:E; simpl.
  - now apply Z.eqb_eq in E.
  - unfold digitalRead, digitalWrite. now rewrite Z.eqb_refl.
Qed.

Lemma terminate_forces_output_witness :
  evaluate ">" d45 d50 = Some false
  /\ digitalRead (levels_after (pin_tick 0 d45 pin7_terminate all_low)) 7 = 1.
Proof.
  split; [reflexivity|].
  apply (terminate_forces_output 0 d45 pin7_terminate all_low);
    vm_compute; try reflexivity; discriminate.
Defined.

(** C6: when the termination match does not apply and the reading equals
    [lastReading] (as the same value, or under [==]), the tick touches no
    pin: no read back, no write, the levels are unchanged, whatever the
    comparison with the threshold gives. *)
Theorem unchanged_reading_no_write kr temp p lv :
  active_on_terminate p && (kr =? 0) = false ->
  last_read_temp_degC p = temp
  \/ LongDouble.eq (last_read_temp_degC p) temp = true ->
  count_events is_write (events (pin_tick kr temp p lv)) = 0%nat
  /\ count_events is_hardware (events (pin_tick kr temp p lv)) = 0%nat
  /\ levels_after (pin_tick kr temp p lv) = lv.
Proof.
  intros Ht He.
  destruct (LongDouble.isnan temp) eqn:Hn.
  - rewrite pin_tick_read_failure by assumption. repeat split.
  - destruct (map_at TEMPR_COMP_OPS (condition p)) as [op|] eqn:Hc.
    + rewrite (pin_tick_supported kr temp p lv op Hn Hc).
      assert (Hne : LongDouble.ne (last_read_temp_degC p) temp = false).
      { destruct He as [He|He].
        - rewrite He. now apply ne_same.
        - unfold LongDouble.ne. unfold LongDouble.eq in He. now rewrite He. }
      unfold decided. rewrite Ht, Hne. simpl. repeat split.
    + rewrite pin_tick_unsupported by assumption. repeat split.
Qed.

Lemma unchanged_reading_no_write_witness :
  evaluate ">" d55 d50 = Some true
  /\ digitalRead all_low 7 <> Z.b2z (output_value pin7)
  /\ count_events is_write
       (events (pin_tick 1 d55 (set_last_read pin7 d55) all_low)) = 0%nat.
Proof.
  split; [reflexivity|]. split; [discriminate|].
  apply (unchanged_reading_no_write 1 d55 (set_last_read pin7 d55) all_low).
  - reflexivity.
  - left. reflexivity.
Defined.

(** C10: on a shutdown tick, a pin with [match_on_terminate] whose read
    failed or whose operator is not supported only reports the error: the
    termination match is not reached, no pin is read or written, and the
    levels are unchanged. *)
Theorem error_path_preempts_terminate kr temp p lv :
  kr = 0 ->
  active_on_terminate p = true ->
  LongDouble.isnan temp = true
  \/ map_count TEMPR_COMP_OPS (condition p) < 1 ->
  count_events is_write (events (pin_tick kr temp p lv)) = 0%nat
  /\ count_events is_hardware (events (pin_tick kr temp p lv)) = 0%nat
  /\ levels_after (pin_tick kr temp p lv) = lv
  /\ (events (pin_tick kr temp p lv)
      = [Cerr_CannotRead (wpi_pin_number p) (temp_degC_source p)]
      \/ events (pin_tick kr temp p lv)
         = [Cerr_NotSupported (wpi_pin_number p) (condition p)]).
Proof.
  intros _ _ H.
  destruct (LongDouble.isnan temp) eqn:Hn.
  - rewrite pin_tick_read_failure by assumption.
    repeat split. now left.
  - destruct H as [H|H]; [discriminate|].
    apply map_count_lt_1 in H.
    rewrite pin_tick_unsupported by assumption.
    repeat split. now right.
Qed.

Lemma error_path_preempts_terminate_witness :
  digitalRead all_low 7 <> Z.b2z (output_value pin7_terminate)
  /\ levels_after (pin_tick 0 LongDouble.nan pin7_terminate all_low)
     = all_low
  /\ levels_after (pin_tick 0 d55 pin7_unsupported all_low) = all_low.
Proof.
  split; [discriminate|]. split.
  - apply (error_path_preempts_terminate 0 LongDouble.nan pin7_terminate
             all_low); try reflexivity. left. reflexivity.
  - apply (error_path_preempts_terminate 0 d55 pin7_unsupported all_low);
      try reflexivity. right. reflexivity.
Defined.

(** ** The loop of [main] *)

Lemma read_keep_running_flag_set env w :
  keep_running w = 0 ->
  read_keep_running env w
  = (0, mkWorld 0 (S (flag_reads w)) (temp_reads w) (levels w) (trace w)).
Proof.
  intros H. unfold read_keep_running. rewrite H.
  destruct (signal_delivered env (flag_reads w)); reflexivity.
Qed.

Lemma for_each_pin_flag_set env pins : forall w,
  keep_running w = 0 ->
  for_each_pin env pins w
  = (ft_pins (full_tick env 0 (temp_reads w) pins (levels w)),
     mkWorld 0 (List.length pins + flag_reads w)
       (List.length pins + temp_reads w)
       (ft_levels (full_tick env 0 (temp_reads w) pins (levels w)))
       (trace w ++ ft_events (full_tick env 0 (temp_reads w) pins (levels w)))).
Proof.
  induction pins as [|p rest IH]; intros [kr fr tr lv tc] H;
    simpl in H; subst kr.
  - simpl. unfold ret. now rewrite app_nil_r.
  - cbn [for_each_pin]. unfold bind at 1.
    unfold do_pin_tick, bind, do_read_temp.
    rewrite read_keep_running_flag_set by reflexivity.
    cbn [keep_running flag_reads temp_reads levels trace].
    rewrite IH by reflexivity.
    cbn [keep_running flag_reads temp_reads levels trace full_tick ft_pins
         ft_levels ft_events List.length].
    unfold ret. f_equal. f_equal; try lia.
    rewrite <- !app_assoc. reflexivity.
Qed.

Lemma sleep_loop_flag_set env n w :
  keep_running w = 0 ->
  sleep_loop env n w
  = (tt, mkWorld 0 (S (flag_reads w)) (temp_reads w) (levels w) (trace w)).
Proof.
  intros H. destruct n; cbn [sleep_loop]; unfold bind;
    rewrite read_keep_running_flag_set by assumption; reflexivity.
Qed.

Lemma read_keep_running_observes env w :
  keep_running w = 0 \/ signal_delivered env (flag_reads w) = true ->
  read_keep_running env w
  = (0, mkWorld 0 (S (flag_reads w)) (temp_reads w) (levels w) (trace w)).
Proof.
  intros [H|H].
  - now apply read_keep_running_flag_set.
  - unfold read_keep_running. now rewrite H.
Qed.

Lemma loop_body_flag_observed env bl pins w :
  keep_running w = 0 \/ signal_delivered env (flag_reads w) = true ->
  loop_body env bl pins w
  = ((true, ft_pins (full_tick env 0 (temp_reads w) pins (levels w))),
     mkWorld 0 (S (List.length pins + S (flag_reads w)))
       (List.length pins + temp_reads w)
       (ft_levels (full_tick env 0 (temp_reads w) pins (levels w)))
       (trace w ++ ft_events (full_tick env 0 (temp_reads w) pins (levels w)))).
Proof.
  intros H. unfold loop_body, bind.
  rewrite read_keep_running_observes by assumption.
  rewrite for_each_pin_flag_set by reflexivity.
  rewrite sleep_loop_flag_set by reflexivity.
  reflexivity.
Qed.

Lemma main_loop_flag_observed env fuel bl pins w :
  keep_running w = 0 \/ signal_delivered env (flag_reads w) = true ->
  main_loop env (S fuel) bl pins w
  = (Some (ft_pins (full_tick env 0 (temp_reads w) pins (levels w))),
     mkWorld 0 (S (List.length pins + S (flag_reads w)))
       (List.length pins + temp_reads w)
       (ft_levels (full_tick env 0 (temp_reads w) pins (levels w)))
       (trace w ++ ft_events (full_tick env 0 (temp_reads w) pins (levels w)))).
Proof.
  intros H. cbn [main_loop]. unfold bind.
  rewrite loop_body_flag_observed by assumption. reflexivity.
Qed.


Lemma count_events_app f l1 l2 :
  count_events f (l1 ++ l2) = (count_events f l1 + count_events f l2)%nat.
Proof. unfold count_events. now rewrite filter_app, length_app. Qed.

Lemma pin_tick_no_sleep_no_read kr temp p lv :
  count_events is_sleep (events (pin_tick kr temp p lv)) = 0%nat
  /\ count_events is_read_temp (events (pin_tick kr temp p lv)) = 0%nat.
Proof.
  destruct (pin_tick_shape kr temp p lv); split; reflexivity.
Qed.

Lemma full_tick_covers_every_pin env kr pins : forall reads lv,
  count_events is_sleep (ft_events (full_tick env kr reads pins lv)) = 0%nat
  /\ count_events is_read_temp (ft_events (full_tick env kr reads pins lv))
     = List.length pins
  /\ List.length (ft_pins (full_tick env kr reads pins lv))
     = List.length pins.
Proof.
  induction pins as [|p rest IH]; intros reads lv; cbn [full_tick].
  - repeat split.
  - cbn [ft_events ft_pins List.length].
    match goal with
    | |- context [full_tick env kr (S reads) rest ?l] =>
        destruct (IH (S reads) l) as [IH1 [IH2 IH3]]
    end.
    match goal with
    | |- context [pin_tick kr ?t p lv] =>
        destruct (pin_tick_no_sleep_no_read kr t p lv) as [T1 T2]
    end.
    rewrite IH3.
    change (ReadTemp (temp_degC_source p) :: ?l)
      with ([ReadTemp (temp_degC_source p)] ++ l).
    rewrite !count_events_app, IH1, IH2, T1, T2. repeat split.
Qed.

(** *** The flag, once set, stays set *)

Section Signal.

Variable env : Env.
Variable n : nat.
Hypothesis delivered : signal_delivered env n = true.

Lemma progress_refl w : progress n w w.
Proof.
  split; [lia|]. split; [tauto|]. exists []. now rewrite app_nil_r.
Qed.

Lemma progress_trans w1 w2 w3 :
  progress n w1 w2 -> progress n w2 w3 -> progress n w1 w3.
Proof.
  intros [A1 [B1 [e1 C1]]] [A2 [B2 [e2 C2]]].
  split; [lia|]. split; [tauto|].
  exists (e1 ++ e2). now rewrite C2, C1, app_assoc.
Qed.

Lemma read_keep_running_progress w :
  progress n w (snd (read_keep_running env w))
  /\ (flag_reads w < flag_reads (snd (read_keep_running env w)))%nat
  /\ fst (read_keep_running env w)
     = keep_running (snd (read_keep_running env w)).
Proof.
  unfold read_keep_running, progress, flag_invariant. simpl.
  repeat split; try lia.
  - intros Hinv Hlt.
    destruct (signal_delivered env (flag_reads w)) eqn:E; [reflexivity|].
    apply Hinv.
    assert (n <> flag_reads w) by (intros ->; congruence). lia.
  - exists []. now rewrite app_nil_r.
Qed.

Lemma do_pin_tick_progress p w : progress n w (snd (do_pin_tick env p w)).
Proof.
  unfold do_pin_tick, bind, do_read_temp.
  match goal with
  | |- context [read_keep_running env ?w1] =>
      destruct (read_keep_running_progress w1) as [[A [B [e C]]] [D E]];
      destruct (read_keep_running env w1) as [kr w2]
  end.
  simpl in *. unfold progress, flag_invariant in *. simpl in *.
  split; [lia|]. split; [exact B|].
  eexists. rewrite C, <- !app_assoc. reflexivity.
Qed.

Lemma for_each_pin_progress pins : forall w,
  progress n w (snd (for_each_pin env pins w)).
Proof.
  induction pins as [|p rest IH]; intros w; cbn [for_each_pin].
  - apply progress_refl.
  - unfold bind.
    pose proof (do_pin_tick_progress p w) as H1.
    destruct (do_pin_tick env p w) as [p' w1].
    pose proof (IH w1) as H2.
    destruct (for_each_pin env rest w1) as [rest' w2].
    simpl in *. eapply progress_trans; eassumption.
Qed.

Lemma sleep_loop_progress k : forall w,
  progress n w (snd (sleep_loop env k w)).
Proof.
  induction k as [|k IH]; intros w; cbn [sleep_loop]; unfold bind;
    destruct (read_keep_running_progress w) as [H1 _];
    destruct (read_keep_running env w) as [kr w1]; simpl in H1.
  - exact H1.
  - destruct (kr =? 1); [|exact H1].
    unfold emit.
    match goal with
    | |- context [sleep_loop env k ?w2] => pose proof (IH w2) as H2
    end.
    eapply progress_trans; [exact H1|].
    eapply progress_trans; [|exact H2].
    unfold progress, flag_invariant; simpl.
    split; [lia|]. split; [tauto|]. eauto.
Qed.

Lemma loop_body_progress bl pins w :
  progress n w (snd (loop_body env bl pins w))
  /\ (flag_reads w < flag_reads (snd (loop_body env bl pins w)))%nat.
Proof.
  unfold loop_body, bind.
  destruct (read_keep_running_progress w) as [H1 [L1 _]].
  destruct (read_keep_running env w) as [kr w1]. simpl in H1, L1.
  pose proof (for_each_pin_progress pins w1) as H2.
  destruct (for_each_pin env pins w1) as [pins' w2]. simpl in H2.
  pose proof (sleep_loop_progress 10 w2) as H3.
  destruct (sleep_loop env 10 w2) as [[] w3]. simpl in *.
  split.
  - eapply progress_trans; [exact H1|].
    eapply progress_trans; eassumption.
  - destruct H2 as [A2 _], H3 as [A3 _]. lia.
Qed.

Lemma for_each_pin_length pins : forall w,
  List.length (fst (for_each_pin env pins w)) = List.length pins.
Proof.
  induction pins as [|p rest IH]; intros w; cbn [for_each_pin].
  - reflexivity.
  - unfold bind. destruct (do_pin_tick env p w) as [p' w1].
    specialize (IH w1).
    destruct (for_each_pin env rest w1) as [rest' w2].
    simpl in *. now rewrite IH.
Qed.

Lemma loop_body_length bl pins w :
  List.length (snd (fst (loop_body env bl pins w))) = List.length pins.
Proof.
  unfold loop_body, bind.
  destruct (read_keep_running env w) as [kr w1].
  pose proof (for_each_pin_length pins w1) as H.
  destruct (for_each_pin env pins w1) as [pins' w2].
  destruct (sleep_loop env 10 w2) as [[] w3]. exact H.
Qed.

Lemma loop_body_not_observed pins w :
  keep_running w <> 0 -> signal_delivered env (flag_reads w) = false ->
  fst (fst (loop_body env false pins w)) = false.
Proof.
  intros Hk Hs. unfold loop_body, bind, read_keep_running.
  rewrite Hs. cbn [fst snd].
  destruct (for_each_pin env pins _) as [pins' w2].
  destruct (sleep_loop env 10 w2) as [[] w3]. simpl.
  destruct (keep_running w =? 0) eqn:E; [|reflexivity].
  apply Z.eqb_eq in E. contradiction.
Qed.

(** The loop reaches an iteration whose first read finds the flag set. *)
Lemma main_loop_reaches_shutdown k : forall pins w,
  flag_invariant n w ->
  (n < flag_reads w + k)%nat ->
  exists pre pins0 w0,
    List.length pins0 = List.length pins
    /\ trace w0 = trace w ++ pre
    /\ (keep_running w0 = 0
        \/ signal_delivered env (flag_reads w0) = true)
    /\ main_loop env (S k) false pins w = main_loop env 1 false pins0 w0.
Proof.
  induction k as [|k IH]; intros pins w Hinv Hk.
  - exists [], pins, w. rewrite app_nil_r. repeat split.
    left. apply Hinv. lia.
  - destruct (Z.eq_dec (keep_running w) 0) as [H0|H0];
      [|destruct (signal_delivered env (flag_reads w)) eqn:Hs].
    + exists [], pins, w. rewrite app_nil_r. repeat split; [tauto|].
      now rewrite !main_loop_flag_observed by tauto.
    + exists [], pins, w. rewrite app_nil_r. repeat split; [tauto|].
      now rewrite !main_loop_flag_observed by tauto.
    + change (main_loop env (S (S k)) false pins w)
        with (bind (loop_body env false pins)
                (fun r => let '(bl', pins') := r in
                          if negb bl' then main_loop env (S k) bl' pins'
                          else ret (Some pins')) w).
      unfold bind.
      pose proof (loop_body_progress false pins w) as [[A [B [e C]]] D].
      pose proof (loop_body_not_observed pins w H0 Hs) as E.
      pose proof (loop_body_length false pins w) as Hlen.
      destruct (loop_body env false pins w) as [[bl' pins'] w1].
      cbn [fst snd] in A, B, C, D, E, Hlen. subst bl'. cbn [negb].
      assert (Hk' : (n < flag_reads w1 + k)%nat) by lia.
      destruct (IH pins' w1 (B Hinv) Hk')
        as [pre [pins0 [w0 [R1 [R2 [R3 R4]]]]]].
      exists (e ++ pre), pins0, w0.
      rewrite R4, R2, C, <- app_assoc. repeat split; congruence.
Qed.

End Signal.

Lemma init_pins_events pins : forall w,
  init_pins pins w
  = (tt, with_events w (map (fun p => PinMode (wpi_pin_number p)) pins)).
Proof.
  induction pins as [|p rest IH]; intros [kr fr tr lv tc];
    cbn [init_pins]; unfold with_events.
  - unfold ret. simpl. now rewrite app_nil_r.
  - unfold bind, emit. rewrite IH. unfold with_events. simpl.
    now rewrite <- app_assoc.
Qed.

Lemma main_running env d fuel w :
  d <> [] ->
  main env (Some d) fuel w
  = match main_loop env fuel false (parse_config d)
            (with_events w (setup_events (parse_config d))) with
    | (None, w') => (None, w')
    | (Some _, w') => (Some 0, with_events w' [Cout_Stopped])
    end.
Proof.
  intros Hd. unfold main, bind, emit.
  destruct d as [|o d]; [contradiction|].
  cbn [parse_config map List.length Nat.eqb].
  rewrite init_pins_events. unfold with_events, setup_events.
  cbn [keep_running flag_reads temp_reads levels trace map].
  rewrite <- !app_assoc. cbn [app].
  destruct (main_loop env fuel false _ _) as [[pins'|] w']; reflexivity.
Qed.

(** C7: an iteration whose first read of the flag finds it set makes one
    tick of every pin, each with the flag set, and ends the loop whatever
    fuel is left; that tick holds one temperature read per pin and no sleep;
    once the flag is set the sleep loop does not sleep; and when a signal is
    delivered, [main] reaches such an iteration after its set-up and returns
    0 right after the tick of that iteration. *)
Theorem shutdown_runs_one_final_tick :
  (forall env fuel bl pins w,
      keep_running w = 0 \/ signal_delivered env (flag_reads w) = true ->
      main_loop env (S fuel) bl pins w
      = (Some (ft_pins (full_tick env 0 (temp_reads w) pins (levels w))),
         mkWorld 0 (S (List.length pins + S (flag_reads w)))
           (List.length pins + temp_reads w)
           (ft_levels (full_tick env 0 (temp_reads w) pins (levels w)))
           (trace w
            ++ ft_events (full_tick env 0 (temp_reads w) pins (levels w)))))
  /\ (forall env kr reads pins lv,
        count_events is_sleep (ft_events (full_tick env kr reads pins lv))
        = 0%nat
        /\ count_events is_read_temp
             (ft_events (full_tick env kr reads pins lv))
           = List.length pins)
  /\ (forall env slices w,
        keep_running w = 0 ->
        sleep_loop env slices w
        = (tt, mkWorld 0 (S (flag_reads w)) (temp_reads w) (levels w)
                       (trace w)))
  /\ (forall env d lv n,
        d <> [] -> signal_delivered env n = true ->
        exists fuel pins0 w0,
          List.length pins0 = List.length d
          /\ (exists pre, trace w0 = setup_events (parse_config d) ++ pre)
          /\ (keep_running w0 = 0
              \/ signal_delivered env (flag_reads w0) = true)
          /\ main env (Some d) fuel (initial_world lv)
             = (Some 0,
                mkWorld 0 (S (List.length pins0 + S (flag_reads w0)))
                  (List.length pins0 + temp_reads w0)
                  (ft_levels
                     (full_tick env 0 (temp_reads w0) pins0 (levels w0)))
                  (trace w0
                   ++ ft_events
                        (full_tick env 0 (temp_reads w0) pins0 (levels w0))
                   ++ [Cout_Stopped]))).
Proof.
  split; [|split; [|split]].
  - intros. now apply main_loop_flag_observed.
  - intros env kr reads pins lv.
    destruct (full_tick_covers_every_pin env kr pins reads lv) as [A [B _]].
    now split.
  - intros. now apply sleep_loop_flag_set.
  - intros env d lv n Hd Hn.
    destruct (main_loop_reaches_shutdown env n Hn (S n) (parse_config d)
                (with_events (initial_world lv) (setup_events (parse_config d))))
      as [pre [pins0 [w0 [R1 [R2 [R3 R4]]]]]].
    + intros H. simpl in H. lia.
    + simpl. lia.
    + exists (S (S n)), pins0, w0.
      split; [unfold parse_config in R1; now rewrite length_map in R1|].
      split; [exists pre; exact R2|].
      split; [assumption|].
      rewrite main_running by assumption.
      rewrite R4, main_loop_flag_observed by assumption.
      unfold with_events. simpl. now rewrite <- app_assoc.
Qed.

Lemma shutdown_runs_one_final_tick_witness :
  fst (main_loop (env_signal_at 0 (Holds 45000)) 1 false [pin7_terminate]
         (initial_world all_low))
  = Some (ft_pins (full_tick (env_signal_at 0 (Holds 45000)) 0 0
                     [pin7_terminate] all_low))
  /\ exists fuel,
      fst (main (env_signal_at 3 (Holds 45000)) (Some [descr7_terminate])
             fuel (initial_world all_low)) = Some 0.
Proof.
  destruct shutdown_runs_one_final_tick as [H1 [_ [_ H4]]]. split.
  - rewrite (H1 (env_signal_at 0 (Holds 45000)) 0%nat false [pin7_terminate]
               (initial_world all_low)); [reflexivity|].
    right. reflexivity.
  - destruct (H4 (env_signal_at 3 (Holds 45000)) [descr7_terminate] all_low
                3%nat) as [fuel [pins0 [w0 [_ [_ [_ E]]]]]].
    + discriminate.
    + reflexivity.
    + exists fuel. now rewrite E.
Defined.

(** Scenarios 1 and 2 of the specification: 55.0 against [> 50.0] sets pin
    7; 45.0 twice writes nothing. *)
Example scenario_1 :
  events (pin_tick 1 d55 pin7 all_low)
  = [PinMode 7; DigitalRead 7; DigitalWrite 7 1;
     Cout_Change d55 ">" d50 7 1 false].
Proof. reflexivity. Qed.

Example scenario_2 :
  let r1 := pin_tick 1 d45 pin7 all_low in
  let r2 := pin_tick 1 d45 (pin_after r1) (levels_after r1) in
  events r1 ++ events r2 = [].
Proof. reflexivity. Qed.

(** Scenario 5 of the specification. *)
Example scenario_5 :
  let r := main (env_signal_at 3 (Holds 45000))
             (Some [mkPinDescriptor 7 false ">" d50 (Some true) "A"]) 5
             (initial_world all_high) in
  fst r = Some 0
  /\ digitalRead (levels (snd r)) 7 = 0
  /\ count_events is_write (trace (snd r)) = 1%nat
  /\ count_events is_sleep (trace (snd r)) = 1%nat.
Proof. vm_compute. repeat split. Qed.

(** C8: [main] returns 1 when the configuration file cannot be opened and 2
    when it holds no pin, in both cases after two messages and nothing else
    (no wiringPi call, no temperature read, no read of the flag); with at
    least one pin it returns 0 once a signal is delivered, and never
    anything but 0. *)
Theorem startup_failures_and_exit_status :
  (forall env fuel w,
      main env None fuel w
      = (Some 1, with_events w [Cout_Started; Cerr_CannotOpenConfig]))
  /\ (forall env fuel w,
        main env (Some []) fuel w
        = (Some 2, with_events w [Cout_Started; Cerr_NoConditions]))
  /\ count_events is_hardware [Cout_Started; Cerr_CannotOpenConfig] = 0%nat
  /\ count_events is_hardware [Cout_Started; Cerr_NoConditions] = 0%nat
  /\ (forall env d lv n,
        d <> [] -> signal_delivered env n = true ->
        exists fuel,
          fst (main env (Some d) fuel (initial_world lv)) = Some 0)
  /\ (forall env d fuel w code,
        d <> [] -> fst (main env (Some d) fuel w) = Some code -> code = 0).
Proof.
  split; [|split; [|split; [|split; [|split]]]]; try reflexivity.
  - intros env fuel w. unfold main, bind, emit, ret, with_events. simpl.
    now rewrite <- app_assoc.
  - intros env fuel w. unfold main, bind, emit, ret, with_events. simpl.
    now rewrite <- app_assoc.
  - intros env d lv n Hd Hn.
    destruct (main_loop_reaches_shutdown env n Hn (S n) (parse_config d)
                (with_events (initial_world lv) (setup_events (parse_config d))))
      as [pre [pins0 [w0 [_ [_ [R3 R4]]]]]].
    + intros H. simpl in H. lia.
    + simpl. lia.
    + exists (S (S n)).
      rewrite main_running by assumption.
      now rewrite R4, main_loop_flag_observed by assumption.
  - intros env d fuel w code Hd.
    rewrite main_running by assumption.
    destruct (main_loop env fuel false _ _) as [[pins'|] w']; simpl;
      congruence.
Qed.

Lemma startup_failures_and_exit_status_witness :
  (exists fuel,
      fst (main (env_signal_at 3 (Holds 45000)) (Some [descr7]) fuel
             (initial_world all_low)) = Some 0)
  /\ (fst (main (env_signal_at 3 (Holds 45000)) (Some [descr7]) 5
             (initial_world all_low)) = Some 0 -> 0 = 0).
Proof.
  destruct startup_failures_and_exit_status as [_ [_ [_ [_ [H5 H6]]]]].
  split.
  - apply (H5 (env_signal_at 3 (Holds 45000)) [descr7] all_low 3%nat).
    + discriminate.
    + reflexivity.
  - apply (H6 (env_signal_at 3 (Holds 45000)) [descr7] 5%nat
              (initial_world all_low) 0).
    discriminate.
Defined.

(** * Further properties *)

(** ** The comparator table *)

Lemma map_at_TEMPR_COMP_OPS_some op f :
  map_at TEMPR_COMP_OPS op = Some f -> In op supported_operators.
Proof.
  unfold TEMPR_COMP_OPS, supported_operators. cbn [map_at In].
  repeat match goal with
         | |- context [String.eqb ?k op] =>
             destruct (String.eqb_spec k op) as [<-|_]; [tauto|]
         end.
  discriminate.
Qed.

(** X1: the table holds the five operators and nothing else: [count] is 1
    for each of them and 0 for any other string, for which no comparator is
    found. *)
Theorem supported_operators_are_the_table op :
  (In op supported_operators -> map_count TEMPR_COMP_OPS op = 1)
  /\ (~ In op supported_operators ->
      map_count TEMPR_COMP_OPS op = 0 /\ evaluate op = fun _ _ => None).
Proof.
  split.
  - simpl. intros [<-|[<-|[<-|[<-|[<-|[]]]]]]; reflexivity.
  - intros H. unfold map_count, evaluate.
    destruct (map_at TEMPR_COMP_OPS op) as [f|] eqn:E.
    + elim H. eapply map_at_TEMPR_COMP_OPS_some; eassumption.
    + split; reflexivity.
Qed.

Lemma supported_operators_are_the_table_witness :
  map_count TEMPR_COMP_OPS ">=" = 1
  /\ map_count TEMPR_COMP_OPS "!=" = 0
  /\ map_count TEMPR_COMP_OPS "==" = 0.
Proof.
  split; [|split].
  - apply (supported_operators_are_the_table ">="). simpl. tauto.
  - apply (supported_operators_are_the_table "!=").
    simpl. intros [H|[H|[H|[H|[H|[]]]]]]; discriminate.
  - apply (supported_operators_are_the_table "==").
    simpl. intros [H|[H|[H|[H|[H|[]]]]]]; discriminate.
Defined.

Lemma SFcompare_antisym x y :
  SFcompare y x = option_map CompOpp (SFcompare x y).
Proof.
  destruct x as [sx|sx| |sx mx ex], y as [sy|sy| |sy my ey]; simpl;
    try reflexivity;
    try (destruct sx; reflexivity); try (destruct sy; reflexivity);
    try (destruct sx, sy; reflexivity).
  assert (P : Pos.compare_cont Eq my mx = CompOpp (Pos.compare_cont Eq mx my))
    by (now rewrite Pos.compare_cont_antisym).
  f_equal. rewrite (Z.compare_antisym ex ey), P.
  destruct sx, sy; simpl; try reflexivity;
    destruct (ex ?= ey); simpl; try reflexivity;
    destruct (Pos.compare_cont Eq mx my); reflexivity.
Qed.

(** X2: on all operands, NaN and infinities included, [<=] is [<] or [=],
    [>=] is [>] or [=], [>] and [>=] are [<] and [<=] with the operands
    swapped, [=] is symmetric and is [<=] and [>=] together, and no two of
    [<], [=], [>] hold together. *)
Theorem comparators_agree x y :
  (holds "<=" x y <-> holds "<" x y \/ holds "=" x y)
  /\ (holds ">=" x y <-> holds ">" x y \/ holds "=" x y)
  /\ (holds ">" x y <-> holds "<" y x)
  /\ (holds ">=" x y <-> holds "<=" y x)
  /\ (holds "=" x y <-> holds "=" y x)
  /\ (holds "=" x y <-> holds "<=" x y /\ holds ">=" x y)
  /\ ~ (holds "<" x y /\ holds ">" x y)
  /\ ~ (holds "<" x y /\ holds "=" x y)
  /\ ~ (holds ">" x y /\ holds "=" x y).
Proof.
  unfold holds, evaluate; cbn [map_at TEMPR_COMP_OPS String.eqb Ascii.eqb
                                 Bool.eqb].
  unfold LongDouble.eq, LongDouble.lt, LongDouble.gt, LongDouble.le,
    LongDouble.ge, SFeqb, SFltb, SFleb.
  rewrite (SFcompare_antisym x y).
  destruct (SFcompare x y) as [[| |]|]; simpl;
    repeat split; try tauto; try (intros [H|H]; discriminate);
    try (intros [H1 H2]; discriminate); intros; try discriminate; auto.
Qed.

(** ** One tick of one pin *)

Lemma SFcompare_some x y :
  LongDouble.isnan x = false -> LongDouble.isnan y = false ->
  exists c, SFcompare x y = Some c.
Proof.
  destruct x, y; simpl; intros Hx Hy; try discriminate; eauto.
Qed.

Lemma comparators_agree_witness :
  holds "<=" d45 d50 /\ holds "<" d50 d55 /\ ~ holds ">=" d45 LongDouble.nan.
Proof.
  split; [|split].
  - destruct (comparators_agree d45 d50) as [H _].
    apply H. left. reflexivity.
  - destruct (comparators_agree d55 d50) as [_ [_ [H _]]].
    apply H. reflexivity.
  - destruct (comparators_agree d45 LongDouble.nan) as [_ [H _]].
    intros G. apply H in G. destruct G as [G|G]; discriminate.
Defined.

(** X3: when neither operand is NaN one of [<], [=], [>] holds; a value is
    [=] to itself exactly when it is not NaN. *)
Theorem comparison_trichotomy x y :
  (LongDouble.isnan x = false -> LongDouble.isnan y = false ->
   holds "<" x y \/ holds "=" x y \/ holds ">" x y)
  /\ (holds "=" x x <-> LongDouble.isnan x = false).
Proof.
  unfold holds, evaluate; cbn [map_at TEMPR_COMP_OPS String.eqb Ascii.eqb
                                 Bool.eqb].
  unfold LongDouble.eq, LongDouble.lt, LongDouble.gt, SFeqb, SFltb.
  split.
  - intros Hx Hy. rewrite (SFcompare_antisym x y).
    destruct (SFcompare_some x y Hx Hy) as [[| |] ->]; simpl; auto.
  - split.
    + destruct x; simpl; intros H; try reflexivity. discriminate.
    + intros H. now rewrite SFcompare_refl.
Qed.

Lemma comparison_trichotomy_witness :
  (holds "<" d45 d50 \/ holds "=" d45 d50 \/ holds ">" d45 d50)
  /\ ~ holds "=" LongDouble.nan LongDouble.nan.
Proof.
  split.
  - apply (comparison_trichotomy d45 d50); reflexivity.
  - intros H.
    apply (proj2 (comparison_trichotomy LongDouble.nan LongDouble.nan)) in H.
    discriminate.
Defined.

Lemma pin_tick_cases kr temp p lv :
  (LongDouble.isnan temp = true
   /\ pin_tick kr temp p lv
      = mkTickResult p lv
          [Cerr_CannotRead (wpi_pin_number p) (temp_degC_source p)])
  \/ (LongDouble.isnan temp = false
      /\ map_at TEMPR_COMP_OPS (condition p) = None
      /\ pin_tick kr temp p lv
         = mkTickResult p lv
             [Cerr_NotSupported (wpi_pin_number p) (condition p)])
  \/ (exists op,
        LongDouble.isnan temp = false
        /\ map_at TEMPR_COMP_OPS (condition p) = Some op
        /\ pin_after (pin_tick kr temp p lv) = set_last_read p temp
        /\ ((decided kr temp p op = false
             /\ levels_after (pin_tick kr temp p lv) = lv
             /\ events (pin_tick kr temp p lv) = [])
            \/ (decided kr temp p op = true
                /\ digitalRead lv (wpi_pin_number p)
                   = Z.b2z (output_value p)
                /\ levels_after (pin_tick kr temp p lv) = lv
                /\ events (pin_tick kr temp p lv)
                   = [PinMode (wpi_pin_number p);
                      DigitalRead (wpi_pin_number p)])
            \/ (decided kr temp p op = true
                /\ digitalRead lv (wpi_pin_number p)
                   <> Z.b2z (output_value p)
                /\ levels_after (pin_tick kr temp p lv)
                   = digitalWrite lv (wpi_pin_number p)
                       (Z.b2z (output_value p))
                /\ events (pin_tick kr temp p lv)
                   = [PinMode (wpi_pin_number p);
                      DigitalRead (wpi_pin_number p);
                      DigitalWrite (wpi_pin_number p)
                        (Z.b2z (output_value p));
                      Cout_Change temp (condition p) (condition_temp_degC p)
                        (wpi_pin_number p) (Z.b2z (output_value p))
                        (active_on_terminate p && (kr =? 0))]))).
Proof.
  destruct (LongDouble.isnan temp) eqn:Hn.
  - left. split; [reflexivity|]. now apply pin_tick_read_failure.
  - right. destruct (map_at TEMPR_COMP_OPS (condition p)) as [op|] eqn:Hc.
    + right. exists op. split; [reflexivity|]. split; [reflexivity|].
      rewrite (pin_tick_supported kr temp p lv op Hn Hc).
      destruct (decided kr temp p op).
      * destruct (digitalRead lv (wpi_pin_number p) =? Z.b2z (output_value p))
          eqn:E; simpl.
        -- apply Z.eqb_eq in E. split; [reflexivity|]. right. left. tauto.
        -- apply Z.eqb_neq in E. split; [reflexivity|]. right. right. tauto.
      * split; [reflexivity|]. left. tauto.
    + left. split; [reflexivity|]. split; [reflexivity|].
      now apply pin_tick_unsupported.
Qed.

Lemma pin_tick_evolves kr temp p lv :
  evolves p (pin_after (pin_tick kr temp p lv)).
Proof.
  destruct (pin_tick_cases kr temp p lv)
    as [[_ ->]|[[_ [_ ->]]|[op [Hn [Hc [-> _]]]]]].
  - now left.
  - now left.
  - right. exists temp. split; [assumption|]. split; [|reflexivity].
    apply map_count_ge_1. eauto.
Qed.

(** X4: a tick changes nothing of a pin but [lastReading], which it keeps
    or replaces by the reading. *)
Theorem tick_keeps_configuration kr temp p lv :
  let p' := pin_after (pin_tick kr temp p lv) in
  wpi_pin_number p' = wpi_pin_number p
  /\ output_value p' = output_value p
  /\ condition p' = condition p
  /\ active_on_terminate p' = active_on_terminate p
  /\ condition_temp_degC p' = condition_temp_degC p
  /\ temp_degC_source p' = temp_degC_source p
  /\ (last_read_temp_degC p' = last_read_temp_degC p
      \/ last_read_temp_degC p' = temp).
Proof.
  intros p'. subst p'.
  destruct (pin_tick_evolves kr temp p lv) as [->|[t [_ [_ E]]]].
  - repeat split. now left.
  - destruct (pin_tick_cases kr temp p lv)
      as [[_ ->]|[[_ [_ ->]]|[op [_ [_ [-> _]]]]]]; simpl;
      repeat split; auto.
Qed.

(** X5: a tick leaves every other pin at its level, and the pin itself at
    its level or at the configured one. *)
Theorem tick_touches_own_pin_only kr temp p lv :
  (forall q, q <> wpi_pin_number p ->
             digitalRead (levels_after (pin_tick kr temp p lv)) q
             = digitalRead lv q)
  /\ (digitalRead (levels_after (pin_tick kr temp p lv)) (wpi_pin_number p)
      = digitalRead lv (wpi_pin_number p)
      \/ digitalRead (levels_after (pin_tick kr temp p lv))
           (wpi_pin_number p)
         = Z.b2z (output_value p)).
Proof.
  destruct (pin_tick_cases kr temp p lv)
    as [[_ ->]|[[_ [_ ->]]|[op [_ [_ [_ H]]]]]];
    [simpl; split; auto..|].
  destruct H as [[_ [-> _]]|[[_ [_ [-> _]]]|[_ [_ [-> _]]]]];
    [split; auto..|].
  split.
  - intros q Hq. unfold digitalRead, digitalWrite.
    apply Z.eqb_neq in Hq. now rewrite Hq.
  - right. unfold digitalRead, digitalWrite. now rewrite Z.eqb_refl.
Qed.

Lemma tick_touches_own_pin_only_witness :
  digitalRead (levels_after (pin_tick 1 d55 pin7 all_low)) 8
  = digitalRead all_low 8.
Proof.
  apply (tick_touches_own_pin_only 1 d55 pin7 all_low). discriminate.
Defined.

(** X6: when the read succeeds, the reading differs from [lastReading] and
    the configured comparison holds, the pin has the configured level after
    the tick and [lastReading] is the reading; the tick writes once when
    the level read back differed and not at all when it did not. *)
Theorem changed_matching_reading_sets_output kr temp p lv :
  LongDouble.isnan temp = false ->
  LongDouble.ne (last_read_temp_degC p) temp = true ->
  evaluate (condition p) temp (condition_temp_degC p) = Some true ->
  let r := pin_tick kr temp p lv in
  digitalRead (levels_after r) (wpi_pin_number p) = Z.b2z (output_value p)
  /\ last_read_temp_degC (pin_after r) = temp
  /\ (count_events is_write (events r) = 1%nat
      <-> digitalRead lv (wpi_pin_number p) <> Z.b2z (output_value p))
  /\ (count_events is_write (events r) = 0%nat
      <-> digitalRead lv (wpi_pin_number p) = Z.b2z (output_value p)).
Proof.
  intros Hn Hne He r. subst r. unfold evaluate in He.
  destruct (pin_tick_cases kr temp p lv)
    as [[Hn' _]|[[_ [Hc _]]|[op [_ [Hc [Hp H]]]]]].
  - congruence.
  - rewrite Hc in He. discriminate.
  - rewrite Hc in He. injection He as He.
    assert (Hd : decided kr temp p op = true).
    { unfold decided. rewrite Hne, He. apply orb_true_r. }
    rewrite Hp.
    destruct H as [[H _]|[[_ [Hs [-> ->]]]|[_ [Hs [-> ->]]]]];
      [congruence| |]; unfold count_events; simpl.
    + repeat split; try assumption; try discriminate; intros; congruence.
    + unfold digitalRead at 1, digitalWrite. rewrite Z.eqb_refl.
      repeat split; try assumption; try discriminate; intros; congruence.
Qed.

Lemma changed_matching_reading_sets_output_witness :
  digitalRead (levels_after (pin_tick 1 d55 pin7 all_low)) 7 = 1
  /\ last_read_temp_degC (pin_after (pin_tick 1 d55 pin7 all_low)) = d55.
Proof.
  destruct (changed_matching_reading_sets_output 1 d55 pin7 all_low)
    as [H1 [H2 _]]; try reflexivity.
  split; assumption.
Defined.

Lemma digitalRead_digitalWrite_same lv q v :
  digitalRead (digitalWrite lv q v) q = v.
Proof. unfold digitalRead, digitalWrite. now rewrite Z.eqb_refl. Qed.

Lemma decided_after_tick kr temp p op :
  LongDouble.isnan temp = false ->
  decided kr temp (set_last_read p temp) op
  = active_on_terminate p && (kr =? 0).
Proof.
  intros Hn. unfold decided. simpl. rewrite ne_same by assumption.
  apply orb_false_r.
Qed.

(** X7: a second tick of a pin with the same reading and the same value of
    the flag, right after the first, writes nothing and changes neither the
    levels nor the pin. *)
Theorem second_tick_with_same_reading_is_silent kr temp p lv :
  let r1 := pin_tick kr temp p lv in
  let r2 := pin_tick kr temp (pin_after r1) (levels_after r1) in
  count_events is_write (events r2) = 0%nat
  /\ levels_after r2 = levels_after r1
  /\ pin_after r2 = pin_after r1.
Proof.
  intros r1 r2. subst r1 r2.
  destruct (pin_tick_cases kr temp p lv)
    as [[Hn E]|[[Hn [Hc E]]|[op [Hn [Hc [Hp H]]]]]].
  - rewrite E. simpl. rewrite pin_tick_read_failure by assumption.
    repeat split.
  - rewrite E. simpl. rewrite pin_tick_unsupported by assumption.
    repeat split.
  - rewrite Hp.
    assert (Hc' : map_at TEMPR_COMP_OPS (condition (set_last_read p temp))
                  = Some op) by exact Hc.
    rewrite (pin_tick_supported kr temp (set_last_read p temp) _ op Hn Hc').
    rewrite decided_after_tick by assumption.
    cbn [wpi_pin_number output_value set_last_read].
    destruct H as [[Hd [-> _]]|[[Hd [Hs [-> _]]]|[Hd [Hs [-> _]]]]].
    + unfold decided in Hd. apply orb_false_elim in Hd. destruct Hd as [-> _].
      repeat split.
    + destruct (active_on_terminate p && (kr =? 0)); [|repeat split].
      rewrite Hs, Z.eqb_refl. repeat split.
    + destruct (active_on_terminate p && (kr =? 0)); [|repeat split].
      rewrite !digitalRead_digitalWrite_same, !Z.eqb_refl. repeat split.
Qed.

(** ** What the loop does to the pins and to the outside *)

Lemma evolves_refl p : evolves p p.
Proof. now left. Qed.

Lemma evolves_trans p1 p2 p3 : evolves p1 p2 -> evolves p2 p3 -> evolves p1 p3.
Proof.
  intros [->|[t [Ht [Hc ->]]]] H; [assumption|].
  destruct H as [->|[t' [Ht' [Hc' ->]]]]; right.
  - exists t. auto.
  - exists t'. auto.
Qed.

Lemma evolves_event p p' e : evolves p p' -> event_of_pin p' e -> event_of_pin p e.
Proof. intros [->|[t [_ [_ ->]]]]; [auto|]. destruct e; simpl; auto. Qed.

Lemma Forall2_evolves_refl pins : Forall2 evolves pins pins.
Proof. induction pins; constructor; auto using evolves_refl. Qed.

Lemma Forall2_evolves_trans l1 : forall l2 l3,
  Forall2 evolves l1 l2 -> Forall2 evolves l2 l3 -> Forall2 evolves l1 l3.
Proof.
  induction l1 as [|a l1 IH]; intros l2 l3 H12 H23;
    inversion H12; subst; inversion H23; subst; constructor.
  - eapply evolves_trans; eassumption.
  - eapply IH; eassumption.
Qed.

Lemma loop_event_evolves l1 l2 e :
  Forall2 evolves l1 l2 -> loop_event l2 e -> loop_event l1 e.
Proof.
  intros H [->|He]; [now left|]. right.
  induction H as [|a b l1 l2 Hab H IH]; inversion He; subst.
  - apply Exists_cons_hd. eapply evolves_event; eassumption.
  - apply Exists_cons_tl. auto.
Qed.

Lemma pin_tick_events_of_pin kr temp p lv :
  Forall (event_of_pin p) (events (pin_tick kr temp p lv)).
Proof.
  destruct (pin_tick_cases kr temp p lv)
    as [[_ ->]|[[_ [Hc ->]]|[op [_ [Hc [_ H]]]]]].
  - repeat constructor.
  - apply map_count_lt_1 in Hc. repeat constructor. assumption.
  - assert (Hs : 1 <= map_count TEMPR_COMP_OPS (condition p))
      by (apply map_count_ge_1; eauto).
    destruct H as [[_ [_ ->]]|[[_ [_ [_ ->]]]|[_ [_ [_ ->]]]]];
      repeat constructor; assumption.
Qed.

Lemma do_pin_tick_unfold env p w :
  do_pin_tick env p w
  = (pin_after
       (pin_tick (fst (read_keep_running env w))
          (read_temp_degC (source_file env (temp_reads w)
                             (temp_degC_source p)))
          p (levels w)),
     mkWorld (fst (read_keep_running env w)) (S (flag_reads w))
       (S (temp_reads w))
       (levels_after
          (pin_tick (fst (read_keep_running env w))
             (read_temp_degC (source_file env (temp_reads w)
                                (temp_degC_source p)))
             p (levels w)))
       (trace w
        ++ ReadTemp (temp_degC_source p)
           :: events
                (pin_tick (fst (read_keep_running env w))
                   (read_temp_degC (source_file env (temp_reads w)
                                      (temp_degC_source p)))
                   p (levels w)))).
Proof.
  unfold do_pin_tick, bind, do_read_temp, read_keep_running. simpl.
  now rewrite <- app_assoc.
Qed.

Lemma for_each_pin_acts env pins : forall w,
  Forall2 evolves pins (fst (for_each_pin env pins w))
  /\ exists evs,
       trace (snd (for_each_pin env pins w)) = trace w ++ evs
       /\ Forall (loop_event pins) evs.
Proof.
  induction pins as [|p rest IH]; intros w; cbn [for_each_pin].
  - split; [constructor|]. exists []. simpl. now rewrite app_nil_r.
  - unfold bind. rewrite do_pin_tick_unfold.
    match goal with
    | |- context [for_each_pin env rest ?w1] =>
        destruct (IH w1) as [H1 [evs [H2 H3]]];
        destruct (for_each_pin env rest w1) as [rest' w2]
    end.
    unfold ret. cbn [fst snd trace] in *. split.
    + constructor; [apply pin_tick_evolves|assumption].
    + eexists. rewrite H2, <- app_assoc. split; [reflexivity|].
      cbn [app]. constructor; [|apply Forall_app; split].
      * right. apply Exists_cons_hd. reflexivity.
      * eapply Forall_impl; [|apply pin_tick_events_of_pin].
        intros e He. right. now apply Exists_cons_hd.
      * eapply Forall_impl; [|exact H3].
        intros e [->|He]; [now left|]. right. now apply Exists_cons_tl.
Qed.

Lemma sleep_loop_sleeps env k : forall w,
  exists j, (j <= k)%nat
    /\ trace (snd (sleep_loop env k w)) = trace w ++ repeat Sleep200ms j.
Proof.
  induction k as [|k IH]; intros w; cbn [sleep_loop]; unfold bind.
  - exists 0%nat. simpl. split; [lia|]. now rewrite app_nil_r.
  - unfold read_keep_running at 1.
    match goal with |- context [?a =? 1] => destruct (a =? 1) end.
    + unfold emit.
      match goal with
      | |- context [sleep_loop env k ?w1] =>
          destruct (IH w1) as [j [Hj E]]
      end.
      exists (S j). split; [lia|]. rewrite E. simpl.
      now rewrite <- app_assoc.
    + exists 0%nat. simpl. split; [lia|]. now rewrite app_nil_r.
Qed.

Lemma Forall_repeat_sleep pins j : Forall (loop_event pins) (repeat Sleep200ms j).
Proof. induction j; simpl; constructor; auto. now left. Qed.

Lemma loop_body_acts env bl pins w :
  Forall2 evolves pins (snd (fst (loop_body env bl pins w)))
  /\ exists evs,
       trace (snd (loop_body env bl pins w)) = trace w ++ evs
       /\ Forall (loop_event pins) evs.
Proof.
  unfold loop_body, bind.
  pose proof (eq_refl : trace (snd (read_keep_running env w)) = trace w) as T.
  destruct (read_keep_running env w) as [kr w1]. cbn [snd] in T.
  destruct (for_each_pin_acts env pins w1) as [H1 [evs [H2 H3]]].
  destruct (for_each_pin env pins w1) as [pins' w2]. rewrite T in H2.
  destruct (sleep_loop_sleeps env 10 w2) as [j [_ H4]].
  destruct (sleep_loop env 10 w2) as [[] w3].
  unfold ret. cbn [fst snd trace] in *. split; [assumption|].
  exists (evs ++ repeat Sleep200ms j). rewrite H4, H2, app_assoc.
  split; [reflexivity|]. apply Forall_app. split; [assumption|].
  apply Forall_repeat_sleep.
Qed.

Lemma main_loop_acts env fuel : forall bl pins w,
  (forall pins', fst (main_loop env fuel bl pins w) = Some pins' ->
                 Forall2 evolves pins pins')
  /\ exists evs,
       trace (snd (main_loop env fuel bl pins w)) = trace w ++ evs
       /\ Forall (loop_event pins) evs.
Proof.
  induction fuel as [|fuel IH]; intros bl pins w; cbn [main_loop].
  - split; [discriminate|]. exists []. simpl. now rewrite app_nil_r.
  - unfold bind.
    destruct (loop_body_acts env bl pins w) as [H1 [evs [H2 H3]]].
    destruct (loop_body env bl pins w) as [[bl' pins1] w1].
    cbn [fst snd] in H1, H2.
    destruct bl'; cbn [negb].
    + unfold ret. cbn [fst snd]. split; [|eauto].
      intros pins' E. injection E as <-. assumption.
    + destruct (IH false pins1 w1) as [A [evs' [B C]]]. split.
      * intros pins' E. eapply Forall2_evolves_trans; eauto.
      * exists (evs ++ evs'). rewrite B, H2, app_assoc.
        split; [reflexivity|]. apply Forall_app. split; [assumption|].
        eapply Forall_impl; [|exact C].
        intros e. now apply loop_event_evolves.
Qed.

Lemma evolves_never_nan l l' :
  Forall2 evolves l l' -> never_nan l -> never_nan l'.
Proof.
  unfold never_nan. induction 1 as [|p p' l l' Hp H IH]; intros Hl;
    inversion Hl; subst; constructor; auto.
  destruct Hp as [->|[t [Ht [_ ->]]]]; assumption.
Qed.

Lemma parse_config_never_nan d : never_nan (parse_config d).
Proof. unfold never_nan, parse_config. induction d; simpl; constructor; auto. Qed.

(** X8: [lastReading] never holds NaN: it does not after [parse_config],
    and a pass over the pins or a run of the loop keeps it so. *)
Theorem last_reading_is_never_nan :
  (forall d, never_nan (parse_config d))
  /\ (forall env pins w,
        never_nan pins -> never_nan (fst (for_each_pin env pins w)))
  /\ (forall env fuel bl pins w pins',
        never_nan pins ->
        fst (main_loop env fuel bl pins w) = Some pins' ->
        never_nan pins').
Proof.
  split; [exact parse_config_never_nan|]. split.
  - intros env pins w H.
    destruct (for_each_pin_acts env pins w) as [E _].
    eapply evolves_never_nan; eassumption.
  - intros env fuel bl pins w pins' H E.
    destruct (main_loop_acts env fuel bl pins w) as [A _].
    eapply evolves_never_nan; eauto.
Qed.

Lemma last_reading_is_never_nan_witness :
  never_nan (fst (for_each_pin (env_signal_at 30 CannotOpen)
                    (parse_config [descr7]) (initial_world all_low))).
Proof.
  destruct last_reading_is_never_nan as [H1 [H2 _]].
  apply H2. apply H1.
Defined.

Lemma evolves_unsupported l l' :
  Forall2 evolves l l' ->
  Forall2 (fun p p' => map_count TEMPR_COMP_OPS (condition p) < 1 -> p' = p)
          l l'.
Proof.
  induction 1 as [|p p' l l' Hp H IH]; constructor; auto.
  intros Hc. destruct Hp as [->|[t [_ [Hs _]]]]; [reflexivity|lia].
Qed.

(** X9: a pin whose operator is not in the table comes out of a pass over
    the pins, and out of the loop, exactly as it went in. *)
Theorem unsupported_pin_is_never_changed :
  (forall env pins w,
      Forall2 (fun p p' =>
                 map_count TEMPR_COMP_OPS (condition p) < 1 -> p' = p)
              pins (fst (for_each_pin env pins w)))
  /\ (forall env fuel bl pins w pins',
        fst (main_loop env fuel bl pins w) = Some pins' ->
        Forall2 (fun p p' =>
                   map_count TEMPR_COMP_OPS (condition p) < 1 -> p' = p)
                pins pins').
Proof.
  split.
  - intros env pins w. apply evolves_unsupported.
    now destruct (for_each_pin_acts env pins w).
  - intros env fuel bl pins w pins' E. apply evolves_unsupported.
    destruct (main_loop_acts env fuel bl pins w) as [A _]. auto.
Qed.

Lemma unsupported_pin_is_never_changed_witness :
  Forall2 (fun p p' => map_count TEMPR_COMP_OPS (condition p) < 1 -> p' = p)
    [pin7_unsupported; pin7]
    [pin7_unsupported; set_last_read pin7 d55].
Proof.
  destruct unsupported_pin_is_never_changed as [_ H].
  apply (H (env_signal_at 0 (Holds 55000)) 1%nat false
           [pin7_unsupported; pin7] (initial_world all_low)).
  reflexivity.
Defined.

Lemma main_trace env d fuel w :
  d <> [] ->
  exists evs,
    trace (snd (main env (Some d) fuel w))
    = trace w ++ setup_events (parse_config d) ++ evs
    /\ Forall (fun e => e = Cout_Stopped \/ loop_event (parse_config d) e)
              evs.
Proof.
  intros Hd. rewrite main_running by assumption.
  match goal with
  | |- context [main_loop env fuel false ?pins ?w0] =>
      destruct (main_loop_acts env fuel false pins w0) as [_ [evs [E F]]];
      destruct (main_loop env fuel false pins w0) as [[pins'|] w1]
  end; cbn [snd] in E |- *.
  - exists (evs ++ [Cout_Stopped]). unfold with_events in *. cbn [trace] in *.
    rewrite E, <- !app_assoc. split; [reflexivity|].
    apply Forall_app. split.
    + eapply Forall_impl; [|exact F]. auto.
    + constructor; auto.
  - exists evs. unfold with_events in *. cbn [trace] in *.
    rewrite E, <- !app_assoc. split; [reflexivity|].
    eapply Forall_impl; [|exact F]. auto.
Qed.

(** X10: with at least one pin, the trace of [main] starts with the start
    message, [wiringPiSetup] and one [pinMode] per descriptor in the order
    of the configuration, and neither of the first two happens again. *)
Theorem setup_precedes_the_loop env d fuel lv :
  d <> [] ->
  exists evs,
    trace (snd (main env (Some d) fuel (initial_world lv)))
    = Cout_Started :: WiringPiSetup
      :: map (fun o => PinMode (wpi_pin o)) d ++ evs
    /\ count_events (fun e => match e with
                              | Cout_Started | WiringPiSetup => true
                              | _ => false
                              end) evs = 0%nat.
Proof.
  intros Hd. destruct (main_trace env d fuel (initial_world lv) Hd)
    as [evs [E F]].
  exists evs. split.
  - rewrite E. unfold setup_events, parse_config. cbn [initial_world trace app].
    now rewrite map_map.
  - clear E. unfold count_events. induction F as [|e evs He F IH].
    + reflexivity.
    + cbn [filter]. destruct He as [->|[->|He]]; try exact IH.
      apply Exists_exists in He. destruct He as [p [_ Hp]].
      destruct e; try exact IH; contradiction.
Qed.

Lemma setup_precedes_the_loop_witness :
  exists evs,
    trace (snd (main (env_signal_at 3 (Holds 45000)) (Some [descr7]) 5
                  (initial_world all_low)))
    = Cout_Started :: WiringPiSetup :: [PinMode 7] ++ evs.
Proof.
  destruct (setup_precedes_the_loop (env_signal_at 3 (Holds 45000))
              [descr7] 5 all_low) as [evs [E _]].
  - discriminate.
  - exists evs. exact E.
Defined.

Lemma In_parse_config p d :
  In p (parse_config d) -> exists o, In o d /\ p = parse_pin o.
Proof.
  unfold parse_config. intros H. apply in_map_iff in H.
  destruct H as [o [<- H]]. eauto.
Qed.

Lemma Exists_event_of_pin_write d pin v :
  Exists (fun p => event_of_pin p (DigitalWrite pin v)) (parse_config d) ->
  exists o, In o d /\ wpi_pin o = pin /\ Z.b2z (output_val o) = v
            /\ In (condition_member o) supported_operators.
Proof.
  intros H. apply Exists_exists in H. destruct H as [p [Hp [-> [-> Hs]]]].
  apply In_parse_config in Hp. destruct Hp as [o [Ho ->]].
  exists o. repeat split; try assumption.
  apply map_count_ge_1 in Hs. destruct Hs as [f Hf].
  now apply map_at_TEMPR_COMP_OPS_some in Hf.
Qed.

(** X11: whatever [main] writes, it writes to the pin of a descriptor of the
    configuration, the level is that descriptor's [output_val], and its
    operator is one of the five; the opposite level is never written. *)
Theorem writes_are_configured env config fuel lv pin v :
  In (DigitalWrite pin v)
     (trace (snd (main env config fuel (initial_world lv)))) ->
  exists d o, config = Some d /\ In o d /\ wpi_pin o = pin
              /\ Z.b2z (output_val o) = v
              /\ In (condition_member o) supported_operators.
Proof.
  destruct config as [[|o0 d]|].
  - simpl. intros [H|[H|[]]]; discriminate.
  - intros H.
    destruct (main_trace env (o0 :: d) fuel (initial_world lv))
      as [evs [E F]]; [discriminate|].
    rewrite E in H. cbn [initial_world trace app] in H.
    apply in_app_or in H. destruct H as [H|H].
    + exfalso. unfold setup_events in H.
      destruct H as [H|[H|H]]; try discriminate.
      apply in_map_iff in H. destruct H as [p [H _]]. discriminate.
    + rewrite Forall_forall in F. destruct (F _ H) as [C|[C|C]];
        try discriminate.
      destruct (Exists_event_of_pin_write (o0 :: d) pin v C)
        as [o [Ho Hr]].
      exists (o0 :: d), o. auto.
  - simpl. intros [H|[H|[]]]; discriminate.
Qed.

Lemma writes_are_configured_witness :
  exists d o, Some [descr7] = Some d /\ In o d /\ wpi_pin o = 7
              /\ Z.b2z (output_val o) = 1
              /\ In (condition_member o) supported_operators.
Proof.
  apply (writes_are_configured (env_signal_at 3 (Holds 55000))
           (Some [descr7]) 5 all_low 7 1).
  vm_compute. tauto.
Defined.

(** ** Pauses, and running without a signal *)

Lemma read_keep_running_undisturbed env w :
  keep_running w = 1 -> signal_delivered env (flag_reads w) = false ->
  read_keep_running env w
  = (1, mkWorld 1 (S (flag_reads w)) (temp_reads w) (levels w) (trace w)).
Proof. intros H Hs. unfold read_keep_running. now rewrite Hs, H. Qed.

Lemma sleep_loop_undisturbed env k : forall w,
  keep_running w = 1 ->
  (forall i, (i <= k)%nat -> signal_delivered env (flag_reads w + i) = false) ->
  sleep_loop env k w
  = (tt, mkWorld 1 (S k + flag_reads w) (temp_reads w) (levels w)
                 (trace w ++ repeat Sleep200ms k)).
Proof.
  induction k as [|k IH]; intros w H Hs; cbn [sleep_loop]; unfold bind;
    rewrite read_keep_running_undisturbed;
    try assumption;
    try (rewrite <- (Nat.add_0_r (flag_reads w)); apply Hs; lia).
  - unfold ret. simpl. now rewrite app_nil_r.
  - cbn [Z.eqb Pos.eqb]. unfold emit. rewrite IH.
    + cbn [keep_running flag_reads temp_reads levels trace repeat].
      f_equal. f_equal; [lia|]. now rewrite <- app_assoc.
    + reflexivity.
    + intros i Hi. cbn [flag_reads].
      replace (S (flag_reads w) + i)%nat with (flag_reads w + S i)%nat by lia.
      apply Hs. lia.
Qed.

Lemma sleep_loop_levels env k : forall w,
  levels (snd (sleep_loop env k w)) = levels w
  /\ temp_reads (snd (sleep_loop env k w)) = temp_reads w.
Proof.
  induction k as [|k IH]; intros w; cbn [sleep_loop]; unfold bind,
    read_keep_running.
  - split; reflexivity.
  - match goal with |- context [?a =? 1] => destruct (a =? 1) end.
    + unfold emit.
      match goal with
      | |- context [sleep_loop env k ?w1] => destruct (IH w1) as [A B]
      end.
      rewrite A, B. split; reflexivity.
    + split; reflexivity.
Qed.

(** X12: the sleep loop sleeps at most as many slices as it is given (10 in
    [main]) and touches neither pins nor sources; with the flag at 1 and no
    signal during the loop it sleeps all of them and reads the flag once
    more than it sleeps. *)
Theorem pause_is_at_most_ten_slices :
  (forall env k w,
      exists j, (j <= k)%nat
        /\ trace (snd (sleep_loop env k w)) = trace w ++ repeat Sleep200ms j
        /\ levels (snd (sleep_loop env k w)) = levels w
        /\ temp_reads (snd (sleep_loop env k w)) = temp_reads w)
  /\ (forall env k w,
        keep_running w = 1 ->
        (forall i, (i <= k)%nat ->
                   signal_delivered env (flag_reads w + i) = false) ->
        sleep_loop env k w
        = (tt, mkWorld 1 (S k + flag_reads w) (temp_reads w) (levels w)
                       (trace w ++ repeat Sleep200ms k))).
Proof.
  split.
  - intros env k w. destruct (sleep_loop_sleeps env k w) as [j [Hj E]].
    destruct (sleep_loop_levels env k w) as [A B].
    exists j. auto.
  - intros. now apply sleep_loop_undisturbed.
Qed.

Lemma pause_is_at_most_ten_slices_witness :
  trace (snd (sleep_loop (env_quiet CannotOpen) 10 (initial_world all_low)))
  = repeat Sleep200ms 10.
Proof.
  destruct pause_is_at_most_ten_slices as [_ H].
  rewrite (H (env_quiet CannotOpen) 10%nat (initial_world all_low));
    reflexivity.
Defined.

Lemma for_each_pin_undisturbed env pins : forall w,
  quiet env -> keep_running w = 1 ->
  keep_running (snd (for_each_pin env pins w)) = 1.
Proof.
  induction pins as [|p rest IH]; intros w Q H; cbn [for_each_pin].
  - exact H.
  - unfold bind. rewrite do_pin_tick_unfold.
    rewrite read_keep_running_undisturbed by auto. cbn [fst].
    match goal with
    | |- context [for_each_pin env rest ?w1] =>
        pose proof (IH w1 Q eq_refl) as H1;
        destruct (for_each_pin env rest w1) as [rest' w2]
    end.
    exact H1.
Qed.

Lemma loop_body_undisturbed env pins w :
  quiet env -> keep_running w = 1 ->
  fst (fst (loop_body env false pins w)) = false
  /\ keep_running (snd (loop_body env false pins w)) = 1.
Proof.
  intros Q H. unfold loop_body, bind.
  rewrite read_keep_running_undisturbed by auto.
  match goal with
  | |- context [for_each_pin env pins ?w1] =>
      pose proof (for_each_pin_undisturbed env pins w1 Q eq_refl) as H1;
      destruct (for_each_pin env pins w1) as [pins' w2]
  end.
  cbn [snd] in H1.
  rewrite (sleep_loop_undisturbed env 10 w2 H1) by (intros; apply Q).
  split; reflexivity.
Qed.

Lemma main_loop_undisturbed env fuel : forall pins w,
  quiet env -> keep_running w = 1 ->
  fst (main_loop env fuel false pins w) = None.
Proof.
  induction fuel as [|fuel IH]; intros pins w Q H; cbn [main_loop].
  - reflexivity.
  - unfold bind.
    destruct (loop_body_undisturbed env pins w Q H) as [A B].
    destruct (loop_body env false pins w) as [[bl' pins'] w1].
    cbn [fst snd] in A, B. subst bl'. cbn [negb]. now apply IH.
Qed.

(** X13: when no signal is delivered [main] is still in its loop after any
    number of iterations, whatever the sources yield and whatever the
    operators are. *)
Theorem runs_until_signalled env d fuel lv :
  d <> [] -> quiet env ->
  fst (main env (Some d) fuel (initial_world lv)) = None.
Proof.
  intros Hd Q. rewrite main_running by assumption.
  match goal with
  | |- context [main_loop env fuel false ?pins ?w0] =>
      pose proof (main_loop_undisturbed env fuel pins w0 Q eq_refl) as H;
      destruct (main_loop env fuel false pins w0) as [[pins'|] w1]
  end; [discriminate|reflexivity].
Qed.

Lemma runs_until_signalled_witness :
  fst (main (env_quiet CannotOpen) (Some [descr7_unsupported]) 100
         (initial_world all_low)) = None.
Proof.
  apply (runs_until_signalled (env_quiet CannotOpen) [descr7_unsupported]
           100 all_low).
  - discriminate.
  - intros n. reflexivity.
Defined.

(** X14: a pin fresh from [parse_config] ignores a reading equal to 0.0
    (which is also what a source that opens but cannot be read yields):
    unless the termination match applies, nothing is read back, written or
    logged beyond the report of an unsupported operator. *)
Theorem first_reading_of_zero_is_ignored kr temp o lv :
  LongDouble.eq LongDouble.zero temp = true ->
  (match match_on_terminate o with Some b => b | None => false end)
  && (kr =? 0) = false ->
  events (pin_tick kr temp (parse_pin o) lv) = []
  \/ events (pin_tick kr temp (parse_pin o) lv)
     = [Cerr_NotSupported (wpi_pin o) (condition_member o)].
Proof.
  intros Hz Ht.
  assert (Hn : LongDouble.isnan temp = false).
  { destruct temp; try reflexivity. discriminate. }
  destruct (map_at TEMPR_COMP_OPS (condition (parse_pin o))) as [op|] eqn:Hc.
  - left. rewrite (pin_tick_supported kr temp (parse_pin o) lv op Hn Hc).
    unfold decided. cbn [active_on_terminate last_read_temp_degC parse_pin].
    rewrite Ht. unfold LongDouble.ne. unfold LongDouble.eq in Hz.
    rewrite Hz. reflexivity.
  - right. now rewrite pin_tick_unsupported.
Qed.

Lemma first_reading_of_zero_is_ignored_witness :
  evaluate "<" (read_temp_degC ReadFails) d50 = Some true
  /\ (events (pin_tick 1 (read_temp_degC ReadFails)
                (parse_pin (mkPinDescriptor 7 true "<" d50 None "A")) all_low)
      = []
      \/ events (pin_tick 1 (read_temp_degC ReadFails)
                   (parse_pin (mkPinDescriptor 7 true "<" d50 None "A"))
                   all_low)
         = [Cerr_NotSupported 7 "<"]).
Proof.
  split; [reflexivity|].
  apply (first_reading_of_zero_is_ignored 1 (read_temp_degC ReadFails)
           (mkPinDescriptor 7 true "<" d50 None "A") all_low); reflexivity.
Defined.

(** ** Read failures *)

Lemma read_temp_degC_isnan f :
  LongDouble.isnan (read_temp_degC f)
  = match f with CannotOpen => true | _ => false end.
Proof.
  destruct f; [reflexivity| |]; unfold read_temp_degC;
    apply div_d1000_not_nan, of_int_not_nan.
Qed.

(** X15: a tick reports a read failure exactly when the source cannot be
    opened. *)
Theorem read_failure_reported_iff_cannot_open kr f p lv :
  events (pin_tick kr (read_temp_degC f) p lv)
  = [Cerr_CannotRead (wpi_pin_number p) (temp_degC_source p)]
  <-> f = CannotOpen.
Proof.
  split.
  - intros H.
    destruct (LongDouble.isnan (read_temp_degC f)) eqn:Hn.
    + rewrite read_temp_degC_isnan in Hn. destruct f; congruence.
    + exfalso.
      destruct (pin_tick_cases kr (read_temp_degC f) p lv)
        as [[Hn' _]|[[_ [_ E]]|[op [_ [_ [_ E]]]]]].
      * congruence.
      * rewrite E in H. discriminate.
      * destruct E as [[_ [_ E]]|[[_ [_ [_ E]]]|[_ [_ [_ E]]]]];
          rewrite E in H; discriminate.
  - intros ->. now rewrite pin_tick_read_failure.
Qed.

Lemma read_failure_reported_iff_cannot_open_witness :
  events (pin_tick 1 (read_temp_degC CannotOpen) pin7 all_low)
  = [Cerr_CannotRead 7 "A"].
Proof.
  apply (read_failure_reported_iff_cannot_open 1 CannotOpen pin7 all_low).
  reflexivity.
Defined.
